(** * The [games] service of seemba-microservices-api

    A shallow embedding of [services/games.service.js]: the Moleculer
    service that creates, updates, lists and removes games, together with a
    model of the document store it talks to.

    Layout:
    - [Js]:      the JavaScript values that occur in stored documents and in
                 request parameters, with truthiness and the number helpers
                 used on line 73 of the service;
    - [Adapter]: the document store behind [this.adapter];
    - [Games]:   the actions and methods of the service;
    - the theorems, one group per property of the specification. *)

From Stdlib Require Import ZArith List String Ascii Lia Bool.
From stdpp Require Import base gmap strings list fin_maps.

Set Warnings "-register-all".

Local Open Scope string_scope.
Local Open Scope list_scope.
Local Open Scope Z_scope.

(* ===================================================================== *)
(** ** JavaScript values *)
(* ===================================================================== *)

Module Js.

(** Field values of a stored document.  Numbers are the integral ones
    (fractions, NaN and the infinities are outside the model); a date is its
    millisecond time stamp; the only arrays the service looks into are arrays
    of strings ([tagList]). *)
Inductive value :=
| VNull
| VBool (b : bool)
| VNum (n : Z)
| VStr (s : string)
| VDate (t : Z)
| VArr (l : list string).

#[global] Instance value_eq_dec : EqDecision value.
Proof. solve_decision. Defined.

(** A document (a plain JS object): a finite map from field names to values.
    A field that is absent reads as [undefined], i.e. [None]. *)
Abbreviation doc := (gmap string value).

(** What a handler can hold in a variable: [undefined], [null], a scalar, a
    document or an array. *)
Inductive jsval :=
| JUndefined
| JNull
| JBool (b : bool)
| JNum (n : Z)
| JStr (s : string)
| JDoc (d : doc)
| JArr (l : list jsval).

(** JavaScript truthiness ([if (x)], [!x], [x ? a : b]). *)
Definition truthy (v : jsval) : bool :=
  match v with
  | JUndefined | JNull => false
  | JBool b => b
  | JNum n => negb (n =? 0)
  | JStr s => negb (String.eqb s "")
  | JDoc _ | JArr _ => true
  end.

(** [x ? Number(x) : dflt] on an optional numeric parameter. *)
Definition number_or (x : option Z) (dflt : Z) : Z :=
  match x with
  | Some n => if truthy (JNum n) then n else dflt
  | None => dflt
  end.

(** [x | 0]: ToInt32 of an integral number. *)
Definition to_int32 (x : Z) : Z := (x + 2 ^ 31) mod 2 ^ 32 - 2 ^ 31.

(** The digit characters of [Number.prototype.toString(36)]. *)
Definition digit36 (d : Z) : ascii :=
  if d <? 10 then ascii_of_nat (Z.to_nat (48 + d))
  else ascii_of_nat (Z.to_nat (97 + (d - 10))).

(** Digits of a non-negative integer in radix 36, most significant first.
    [fuel] bounds the number of digits; 13 digits cover every 64-bit value. *)
Fixpoint digits36 (fuel : nat) (n : Z) : list ascii :=
  match fuel with
  | O => []
  | S f =>
      if n <? 36 then [digit36 n]
      else digits36 f (n / 36) ++ [digit36 (n mod 36)]
  end.

(** [n.toString(36)] for an integer [n]: a minus sign for negative numbers,
    then the digits of the absolute value, without padding. *)
Definition to_string36 (n : Z) : string :=
  if n <? 0 then String "-" (string_of_list_ascii (digits36 13 (- n)))
  else string_of_list_ascii (digits36 13 n).

(** A character of the class [[0-9a-z]]. *)
Definition is_base36_char (c : ascii) : bool :=
  let n := Z.of_nat (nat_of_ascii c) in
  ((48 <=? n) && (n <=? 57)) || ((97 <=? n) && (n <=? 122)).

End Js.
Export Js.

(* ===================================================================== *)
(** ** The document store *)
(* ===================================================================== *)

Module Adapter.

(** The collection: the stored documents in insertion order. *)
Definition store := list doc.

(** The conditions the service puts on a field: [{f: v}] and
    [{f: {"$in": [v1, ...]}}]. *)
Inductive cond :=
| CEq (v : string)
| CIn (vs : list string).

(** A query object: one condition per listed field; [[]] is [{}]. *)
Definition query := list (string * cond).

(** The argument of [adapter.find] and [adapter.count], as built on lines
    157-163 and 231-239. [None] in [limit] and [offset] is [null]. *)
Record find_params := {
  limit : option Z;
  offset : option Z;
  sort : list string;
  populate : list string;
  query_of : query
}.

(** Equality of a stored field with a string, as document stores decide it:
    the field is that string, or an array holding it. *)
Definition field_matches (fv : option value) (v : string) : bool :=
  match fv with
  | Some (VStr s) => String.eqb s v
  | Some (VArr l) => existsb (String.eqb v) l
  | _ => false
  end.

Definition cond_matches (d : doc) (f : string) (c : cond) : bool :=
  match c with
  | CEq v => field_matches (d !! f) v
  | CIn vs => existsb (field_matches (d !! f)) vs
  end.

Definition matches (q : query) (d : doc) : bool :=
  forallb (fun fc => cond_matches d (fst fc) (snd fc)) q.

(** Order of field values used by sorting: first by kind (missing, null,
    number, string, boolean, date, array), then inside the kind. *)
Definition kind_rank (fv : option value) : Z :=
  match fv with
  | None => 0
  | Some VNull => 1
  | Some (VNum _) => 2
  | Some (VStr _) => 3
  | Some (VBool _) => 4
  | Some (VDate _) => 5
  | Some (VArr _) => 6
  end.

Fixpoint strings_compare (l1 l2 : list string) : comparison :=
  match l1, l2 with
  | [], [] => Eq
  | [], _ :: _ => Lt
  | _ :: _, [] => Gt
  | a :: l1', b :: l2' =>
      match String.compare a b with
      | Eq => strings_compare l1' l2'
      | c => c
      end
  end.

Definition value_compare (a b : option value) : comparison :=
  match a, b with
  | Some (VNum x), Some (VNum y) => Z.compare x y
  | Some (VDate x), Some (VDate y) => Z.compare x y
  | Some (VStr x), Some (VStr y) => String.compare x y
  | Some (VBool x), Some (VBool y) => Bool.compare x y
  | Some (VArr x), Some (VArr y) => strings_compare x y
  | _, _ => Z.compare (kind_rank a) (kind_rank b)
  end.

(** A sort key: ["-f"] is field [f] descending, ["f"] ascending. *)
Definition sort_key (k : string) : string * bool :=
  match k with
  | String "-" f => (f, true)
  | _ => (k, false)
  end.

(** [d1] comes strictly before [d2] under the sort keys. *)
Fixpoint strictly_before (keys : list string) (d1 d2 : doc) : bool :=
  match keys with
  | [] => false
  | k :: ks =>
      let '(f, desc) := sort_key k in
      match value_compare (d1 !! f) (d2 !! f) with
      | Eq => strictly_before ks d1 d2
      | Lt => negb desc
      | Gt => desc
      end
  end.

Fixpoint insert_sorted (keys : list string) (x : doc) (l : list doc) : list doc :=
  match l with
  | [] => [x]
  | y :: ys =>
      if strictly_before keys y x then y :: insert_sorted keys x ys
      else x :: l
  end.

(** Stable insertion sort of the rows by the sort keys. *)
Definition sort_docs (keys : list string) (l : list doc) : list doc :=
  foldr (insert_sorted keys) [] l.

(** Skip and limit are applied only for a number above zero. *)
Definition apply_offset (o : option Z) (l : list doc) : list doc :=
  match o with
  | Some n => if 0 <? n then skipn (Z.to_nat n) l else l
  | None => l
  end.

Definition apply_limit (o : option Z) (l : list doc) : list doc :=
  match o with
  | Some n => if 0 <? n then firstn (Z.to_nat n) l else l
  | None => l
  end.

(** Modelled from the spec: the Entity Store ([this.adapter], provided by
    the [db.mixin] module and the database adapter it selects) is not part
    of the service file.  [find(query{limit,offset,sort,filter}) -> doc[]]: the
    documents matching the filter, sorted, then the offset skipped and the
    limit applied. *)
Definition find (p : find_params) (s : store) : list doc :=
  apply_limit (limit p)
    (apply_offset (offset p)
       (sort_docs (sort p) (List.filter (matches (query_of p)) s))).

(** Modelled from the spec: [count(query{filter}) -> int], the number of
    rows of the cursor that [find] would run.  A limit or an offset left in
    the parameters acts on the count as well, which is why the service
    clears them first. *)
Definition count (p : find_params) (s : store) : nat :=
  length (find p s).

(** Modelled from the spec: [findOne(filter) -> doc|null], one of the
    stored documents matching the filter, [null] when none does.  Which one
    the store returns when several match is not stated: [choose] is the
    store's choice among the matching documents. *)
Definition findOne (choose : list doc -> option doc) (q : query) (s : store)
  : option doc :=
  choose (List.filter (matches q) s).

(** All that is taken for granted about the store's choice: it returns one
    of the candidates, and nothing only when there is none. *)
Definition chooses (choose : list doc -> option doc) : Prop :=
  forall l, match choose l with
            | Some d => In d l
            | None => l = []
            end.

(** The internal id of a document. *)
Definition id_of (d : doc) : option value := d !! "_id".

Definition has_id (i : option value) (d : doc) : bool :=
  match i with
  | Some v => bool_decide (id_of d = Some v)
  | None => false
  end.

(** Modelled from the spec: lookup by internal id (the [getById] method of
    the database mixin). *)
Definition findById (i : option value) (s : store) : option doc :=
  head (List.filter (has_id i) s).

(** What a store operation can report. *)
Inductive store_error :=
| DuplicateKey
| ImmutableId.

(** Modelled from the spec: [insert(doc) -> doc].  The store gives the
    document the id [fresh] unless it brings its own; ids are unique. *)
Definition insert (fresh : string) (d : doc) (s : store)
  : store_error + (doc * store) :=
  let d' := match id_of d with
            | Some _ => d
            | None => <["_id" := VStr fresh]> d
            end in
  match findById (id_of d') s with
  | Some _ => inl DuplicateKey
  | None => inr (d', s ++ [d'])
  end.

(** [{"$set": patch}] on one document: every field of the patch is written,
    every other field stays. *)
Definition apply_set (patch d : doc) : doc := patch ∪ d.

Fixpoint replace_first (i : option value) (d' : doc) (s : store) : store :=
  match s with
  | [] => []
  | d :: rest =>
      if has_id i d then d' :: rest else d :: replace_first i d' rest
  end.

(** Modelled from the spec: [updateById(id, patch) -> doc] with a [$set]
    patch.  The document with that id is rewritten and returned; [null]
    (here [None]) when there is none.  A patch that would change [_id] is
    refused by the store. *)
Definition updateById (i : option value) (patch : doc) (s : store)
  : store_error + (option doc * store) :=
  match findById i s with
  | None => inr (None, s)
  | Some d =>
      let d' := apply_set patch d in
      if bool_decide (id_of d' = id_of d)
      then inr (Some d', replace_first i d' s)
      else inl ImmutableId
  end.

Fixpoint remove_first (i : option value) (s : store) : store :=
  match s with
  | [] => []
  | d :: rest => if has_id i d then rest else d :: remove_first i rest
  end.

(** [removeById(id)] deletes the document with that id.  Its answer is the
    number of documents removed, 1 or 0: the doc comment of [remove]
    (line 276) has the action return the "Count of removed articles", and
    the action returns what [removeById] answers. *)
Definition removeById (i : option value) (s : store) : nat * store :=
  (match findById i s with
   | Some _ => 1%nat
   | None => 0%nat
   end,
   remove_first i s).

End Adapter.

(* ===================================================================== *)
(** ** The service *)
(* ===================================================================== *)

Module Games.

(** *** Errors and the handler monad *)

(** What an action can throw: the validator's error, the two
    [MoleculerClientError(..., 404)] of lines 116 and 287, [ForbiddenError],
    and a failure of the store, which is passed on unchanged. *)
Inductive error :=
| ValidationError
| NotFound (msg : string)
| Forbidden
| StoreError (e : Adapter.store_error).

Inductive result (A : Type) :=
| Ok (a : A)
| Err (e : error).
Arguments Ok {A} a.
Arguments Err {A} e.

(** A handler runs against the store and leaves a store behind, whether it
    returns or throws. *)
Definition M (A : Type) : Type := Adapter.store -> result A * Adapter.store.

Definition ret {A} (a : A) : M A := fun s => (Ok a, s).

Definition throw {A} (e : error) : M A := fun s => (Err e, s).

Definition bind {A B} (c : M A) (k : A -> M B) : M B :=
  fun s =>
    match c s with
    | (Ok a, s') => k a s'
    | (Err e, s') => (Err e, s')
    end.

Notation "'do' x <- c ; k" := (bind c (fun x => k))
  (at level 10, x name, c at level 100, k at level 200).

(** Store operations lifted into the monad. *)
Definition adapter_find (p : Adapter.find_params) : M (list doc) :=
  fun s => (Ok (Adapter.find p s), s).

Definition adapter_count (p : Adapter.find_params) : M nat :=
  fun s => (Ok (Adapter.count p s), s).

Definition adapter_findOne (choose : list doc -> option doc)
    (q : Adapter.query) : M (option doc) :=
  fun s => (Ok (Adapter.findOne choose q s), s).

Definition adapter_insert (fresh : string) (d : doc) : M doc :=
  fun s =>
    match Adapter.insert fresh d s with
    | inr (d', s') => (Ok d', s')
    | inl e => (Err (StoreError e), s)
    end.

Definition adapter_updateById (i : option value) (patch : doc)
  : M (option doc) :=
  fun s =>
    match Adapter.updateById i patch s with
    | inr (d', s') => (Ok d', s')
    | inl e => (Err (StoreError e), s)
    end.

Definition adapter_removeById (i : option value) : M nat :=
  fun s => let '(n, s') := Adapter.removeById i s in (Ok n, s').

(** [this.getById(id)] of the database mixin. *)
Definition getById (id : string) : M (option doc) :=
  fun s => (Ok (Adapter.findById (Some (VStr id)) s), s).

(** *** Settings (lines 25-47) *)

Definition settings_fields : list string :=
  ["_id"; "name"; "description"; "createdAt"; "updatedAt"; "creator"].

(** The relations that have a populate rule: only [author]. *)
Definition settings_populates : list string := ["author"].

(** [{ type: "string", min: 1 }]. *)
Definition string_min1 (v : option value) : bool :=
  match v with
  | Some (VStr s) => negb (String.eqb s "")
  | _ => false
  end.

(** The same rule with [optional: true]: a missing or [null] field is
    let through. *)
Definition optional_string_min1 (v : option value) : bool :=
  match v with
  | None | Some VNull => true
  | _ => string_min1 v
  end.

(** [settings.entityValidator], run by [this.validateEntity]. *)
Definition valid_entity (entity : doc) : bool :=
  string_min1 (entity !! "name") && string_min1 (entity !! "description").

Definition validateEntity (entity : doc) : M unit :=
  if valid_entity entity then ret tt else throw ValidationError.

(** The [params.game] schema of [update] (lines 101-107); fields that the
    schema does not list pass through. *)
Definition valid_patch (game : doc) : bool :=
  optional_string_min1 (game !! "name")
  && optional_string_min1 (game !! "description").

Definition validateUpdateParams (game : doc) : M unit :=
  if valid_patch game then ret tt else throw ValidationError.

(** *** The response envelope *)

(** The object returned by the actions; [None] is a field that is not set. *)
Record response := {
  games : option (list jsval);
  game : option jsval;
  gamesCount : option nat;
  commentsCount : option nat
}.

(** [transformEntity] (lines 348-352). *)
Definition transformEntity (entity : jsval) : jsval :=
  if negb (truthy entity) then JNull else entity.

(** [transformResult] (lines 329-339). *)
Definition transformResult (entities : jsval) : response :=
  match entities with
  | JArr l =>
      {| games := Some (map transformEntity l); game := None;
         gamesCount := None; commentsCount := None |}
  | _ =>
      {| games := None; game := Some (transformEntity entities);
         gamesCount := None; commentsCount := None |}
  end.

(** Keeping the fields listed in [settings.fields]. *)
Definition filterFields (d : doc) : doc :=
  filter (fun kv => fst kv ∈ settings_fields) d.

(** Modelled from the spec: [transformDocuments] belongs to the database
    mixin, which is not part of the service file.  It resolves the requested
    relations that have a populate rule and keeps the fields of
    [settings.fields].  The handlers only ever request [creator], for which
    there is no rule, so nothing is resolved. *)
Definition transformDocuments (docs : list doc) : list doc :=
  map filterFields docs.

Definition transformDocument (d : option doc) : jsval :=
  match d with
  | Some d => JDoc (filterFields d)
  | None => JNull
  end.

(** *** create (lines 63-84) *)

Section Create.

(** [slug(name, { lower: true })] of the [slug] package, which the service
    imports; the package is not part of the repository. *)
Variable slug_lower : string -> string.

(** Line 73.  [rnd] is the integral part of
    [Math.random() * Math.pow(36, 6)], so [0 <= rnd < 36 ^ 6]. *)
Definition make_slug (name : string) (rnd : Z) : string :=
  (slug_lower name ++ "-" ++ to_string36 (to_int32 rnd))%string.

(** [entity.name], a string once the entity is validated. *)
Definition name_of (entity : doc) : string :=
  match entity !! "name" with
  | Some (VStr s) => s
  | _ => ""
  end.

(** Lines 73-76: the entity with its slug, creator and the two readings of
    the clock. *)
Definition new_entity (game : doc) (actor : string) (rnd t_created t_updated : Z)
  : doc :=
  let entity := <["slug" := VStr (make_slug (name_of game) rnd)]> game in
  let entity := <["creator" := VStr actor]> entity in
  let entity := <["createdAt" := VDate t_created]> entity in
  <["updatedAt" := VDate t_updated]> entity.

(** The handler up to its answer.  [fresh] is the id the store has in hand
    for a new document.  The awaited [entityChanged] of line 81, which
    clears caches after the insert, is left out: the model follows the runs
    in which the steps after the store write go through. *)
Definition create (game : doc) (actor : string) (rnd t_created t_updated : Z)
    (fresh : string) : M response :=
  do _ <- validateEntity game;
  let entity := new_entity game actor rnd t_created t_updated in
  do d <- adapter_insert fresh entity;
  let json := transformDocument (Some d) in
  ret (transformResult json).

End Create.

(** *** update (lines 96-131) *)

(** [newData] after line 111: the patch object with [updatedAt] stamped
    into it. *)
Definition stamp (game : doc) (now : Z) : doc :=
  <["updatedAt" := VDate now]> game.

(** The handler (lines 109-130) up to its answer; [entityChanged] on
    line 128 is started without being awaited and is left out. *)
Definition update_handler (id : string) (game : doc) (actor : string)
    (now : Z) : M response :=
  let newData := stamp game now in
  do found <- getById id;
  match found with
  | None => throw (NotFound "Game not found")
  | Some g =>
      if bool_decide (g !! "creator" ≠ Some (VStr actor)) then throw Forbidden
      else
        do d <- adapter_updateById (Adapter.id_of g) newData;
        let entity := transformDocument d in
        ret (transformResult entity)
  end.

(** The action: the parameter schema, then the handler. *)
Definition update (id : string) (game : doc) (actor : string) (now : Z)
  : M response :=
  do _ <- validateUpdateParams game;
  update_handler id game actor now.

(** *** list and listByUser (lines 143-263) *)

(** [ctx.params] of the two list actions after validation.  [tag] is not in
    the schema of [list] but its handler reads it; the validator lets
    parameters it does not know through. *)
Record list_params := {
  creator : option string;
  limit : option Z;
  offset : option Z;
  tag : option string
}.

Definition js_of_number (o : option Z) : jsval :=
  match o with
  | Some n => JNum n
  | None => JNull
  end.

(** Lines 185-190 and 242-247: the copy of the parameters whose limit and
    offset are set to [null] when they are truthy. *)
Definition remove_pagination (p : Adapter.find_params) : Adapter.find_params :=
  let l := if truthy (js_of_number (Adapter.limit p)) then None
           else Adapter.limit p in
  let o := if truthy (js_of_number (Adapter.offset p)) then None
           else Adapter.offset p in
  {| Adapter.limit := l; Adapter.offset := o;
     Adapter.sort := Adapter.sort p; Adapter.populate := Adapter.populate p;
     Adapter.query_of := Adapter.query_of p |}.

(** Lines 162-167: the query of [list]. *)
Definition list_query (p : list_params) : Adapter.query :=
  match tag p with
  | Some t =>
      if truthy (JStr t) then [("tagList", Adapter.CIn [t])] else []
  | None => []
  end.

Definition list_find_params (p : list_params) : Adapter.find_params :=
  {| Adapter.limit := Some (number_or (limit p) 20);
     Adapter.offset := Some (number_or (offset p) 0);
     Adapter.sort := ["-createdAt"];
     Adapter.populate := ["creator"];
     Adapter.query_of := list_query p |}.

Definition list_ (p : list_params) : M response :=
  let params := list_find_params p in
  let countParams := remove_pagination params in
  do rows <- adapter_find params;
  do n <- adapter_count countParams;
  let docs := transformDocuments rows in
  let r := transformResult (JArr (map JDoc docs)) in
  ret {| games := games r; game := game r;
         gamesCount := Some n; commentsCount := commentsCount r |}.

(** Lines 231-239: the parameters of [listByUser]. *)
Definition listByUser_find_params (c : string) (p : list_params)
  : Adapter.find_params :=
  {| Adapter.limit := Some (number_or (limit p) 20);
     Adapter.offset := Some (number_or (offset p) 0);
     Adapter.sort := ["-createdAt"];
     Adapter.populate := ["creator"];
     Adapter.query_of := [("game", Adapter.CEq c)] |}.

(** [creator] is required by the schema of [listByUser]. *)
Definition listByUser (p : list_params) : M response :=
  match creator p with
  | None => throw ValidationError
  | Some c =>
      let params := listByUser_find_params c p in
      let countParams := remove_pagination params in
      do rows <- adapter_find params;
      do n <- adapter_count countParams;
      let docs := transformDocuments rows in
      let r := transformResult (JArr (map JDoc docs)) in
      ret {| games := games r; game := game r;
             gamesCount := gamesCount r; commentsCount := Some n |}
  end.

(** *** remove (lines 278-300) and findBySlug (lines 318-320) *)

(** [choose] is the choice of the store behind [findOne]. *)
Definition findBySlug (choose : list doc -> option doc) (slug : string)
  : M (option doc) :=
  adapter_findOne choose [("slug", Adapter.CEq slug)].

(** The handler of [remove] up to its answer; the awaited [entityChanged]
    of line 296, which clears caches after the delete, is left out. *)
Definition remove (choose : list doc -> option doc) (id : string)
    (actor : string) : M nat :=
  do found <- findBySlug choose id;
  match found with
  | None => throw (NotFound "Game not found!")
  | Some entity =>
      if bool_decide (entity !! "creator" ≠ Some (VStr actor))
      then throw Forbidden
      else
        do res <- adapter_removeById (Adapter.id_of entity);
        ret res
  end.

(** *** Cache keys (lines 144-146 and 219-221) *)

Definition list_cache_keys : list string :=
  ["#userID"; "creator"; "limit"; "offset"].

Definition listByUser_cache_keys : list string :=
  ["#userID"; "game"; "limit"; "offset"].

Definition set_opt (k : string) (v : option value) (o : doc) : doc :=
  match v with
  | Some v => <[k := v]> o
  | None => o
  end.

(** [ctx.params] as the object the cacher reads: a parameter is a field of
    it exactly when it was supplied. *)
Definition params_object (p : list_params) : doc :=
  set_opt "creator" (VStr <$> creator p)
    (set_opt "limit" (VNum <$> limit p)
       (set_opt "offset" (VNum <$> offset p)
          (set_opt "tag" (VStr <$> tag p) ∅))).

(** The value a cache key entry names: ["#k"] is [ctx.meta.k], any other
    entry is [ctx.params.k]. *)
Definition getParamMetaValue (key : string) (params meta : doc)
  : option value :=
  match key with
  | String "#" k => meta !! k
  | _ => params !! key
  end.

Section CacheKey.

(** The cacher of the framework is not part of the repository: it derives
    the key of a request from the action name and from the values found
    under the listed entries.  How it combines them is a parameter. *)
Context {K : Type}.
Variable keygen : string -> list (option value) -> K.

Definition cache_key (action : string) (keys : list string)
    (params meta : doc) : K :=
  keygen action (map (fun k => getParamMetaValue k params meta) keys).

Definition list_cache_key (p : list_params) (meta : doc) : K :=
  cache_key "games.list" list_cache_keys (params_object p) meta.

Definition listByUser_cache_key (p : list_params) (meta : doc) : K :=
  cache_key "games.listByUser" listByUser_cache_keys (params_object p) meta.

End CacheKey.

End Games.

(* ===================================================================== *)
(** ** Predicates and sample data used by the statements *)
(* ===================================================================== *)

Module Samples.

Definition lower_ascii (c : ascii) : ascii :=
  let n := nat_of_ascii c in
  if (Nat.leb 65 n && Nat.leb n 90)%bool then ascii_of_nat (n + 32) else c.

(** An instance of [slug(name, { lower: true })] for names made of ASCII
    letters and digits, on which the package only lower-cases. *)
Fixpoint to_lower (s : string) : string :=
  match s with
  | EmptyString => EmptyString
  | String c r => String (lower_ascii c) (to_lower r)
  end.

(** [s] matches [base-[0-9a-z]{6}]. *)
Definition matches_slug_pattern (base s : string) : bool :=
  let n := String.length base in
  String.eqb (substring 0 (S n) s) (base ++ "-")%string
  && Nat.eqb (String.length s) (n + 7)
  && forallb is_base36_char (list_ascii_of_string (substring (S n) 6 s)).

(** The request body [{name: "Chess", description: "board game"}]. *)
Definition chess : doc :=
  <["name" := VStr "Chess"]> (<["description" := VStr "board game"]> ∅).

(** A stored game created by user [u1]. *)
Definition stored (id name slug owner : string) (t : Z) : doc :=
  <["_id" := VStr id]>
    (<["name" := VStr name]>
       (<["description" := VStr "d"]>
          (<["slug" := VStr slug]>
             (<["creator" := VStr owner]>
                (<["createdAt" := VDate t]>
                   (<["updatedAt" := VDate t]> ∅)))))).

Definition g1 : doc := stored "g1" "Chess" "chess-4fzyo8" "u1" 100.
Definition g2 : doc := stored "g2" "Go" "go-9ix1az" "u1" 200.
Definition g3 : doc := stored "g3" "Shogi" "shogi-00abcd" "u2" 300.
Definition g4 : doc := stored "g4" "Hex" "hex-zzzzzz" "u2" 400.
Definition g5 : doc := stored "g5" "Tak" "tak-10z0z0" "u3" 500.

Definition five_games : Adapter.store := [g1; g2; g3; g4; g5].

(** A game carrying a tag list. *)
Definition tagged (d : doc) (tags : list string) : doc :=
  <["tagList" := VArr tags]> d.

(** Three games with tags: two carry [board], one carries [party]. *)
Definition tagged_games : Adapter.store :=
  [tagged g1 ["board"; "classic"]; tagged g2 ["board"]; tagged g3 ["party"]].

End Samples.

(** The store keeps ids unique and gives every document one. *)
Definition wf_store (s : Adapter.store) : Prop :=
  NoDup (map Adapter.id_of s) ∧ Forall (fun d => is_Some (Adapter.id_of d)) s.

(** At most one stored document carries the slug. *)
Definition slug_unique (slug : string) (s : Adapter.store) : Prop :=
  (length (List.filter (Adapter.matches [("slug", Adapter.CEq slug)]) s) <= 1)%nat.

(** The value of a digit character of radix 36. *)
Definition digit_value36 (c : ascii) : Z :=
  let n := Z.of_nat (nat_of_ascii c) in
  if n <? 58 then n - 48 else n - 87.

(** Reading radix 36 digits, most significant first. *)
Definition value36 (l : list ascii) : Z :=
  fold_left (fun acc c => acc * 36 + digit_value36 c) l 0.

(** Reading back what [toString(36)] wrote: an optional minus sign, then
    digits. *)
Definition parse_int36 (s : string) : Z :=
  match s with
  | EmptyString => 0
  | String c r =>
      if Ascii.eqb c "-" then - value36 (list_ascii_of_string r)
      else value36 (list_ascii_of_string s)
  end.

(** Every two neighbours of the list are related, the earlier one first. *)
Fixpoint neighbours {A} (R : A -> A -> Prop) (l : list A) : Prop :=
  match l with
  | x :: rest =>
      match rest with
      | y :: _ => R x y /\ neighbours R rest
      | [] => True
      end
  | [] => True
  end.

(** [d2] is not newer than [d1], in the order the store sorts by. *)
Definition not_newer (d1 d2 : doc) : Prop :=
  Adapter.value_compare (d2 !! "createdAt") (d1 !! "createdAt") <> Gt.

(** The document carries the tag: its [tagList] is the tag or holds it. *)
Definition has_tag (t : string) (d : doc) : Prop :=
  d !! "tagList" = Some (VStr t)
  \/ exists l, d !! "tagList" = Some (VArr l) /\ In t l.

(** What an action returned, when it did return. *)
Definition result_value {A} (r : Games.result A) : option A :=
  match r with
  | Games.Ok a => Some a
  | Games.Err _ => None
  end.

(** The fields that [create] writes itself. *)
Definition create_owned_fields : list string :=
  ["slug"; "creator"; "createdAt"; "updatedAt"].

(** Case split on the tests [0 < limit] and [0 < offset] of the store. *)
Ltac case_paging :=
  repeat match goal with
         | |- context [0 <? ?x] => destruct (0 <? x)
         end.

(* ===================================================================== *)
(** ** The result transformer *)
(* ===================================================================== *)

Section TransformResult.
Import Games.

Lemma transformEntity_doc (d : doc) : transformEntity (JDoc d) = JDoc d.
Proof. reflexivity. Qed.

Lemma transformEntity_falsy (v : jsval) :
  truthy v = false -> transformEntity v = JNull.
Proof. intros H. unfold transformEntity. now rewrite H. Qed.

Lemma transformEntity_truthy (v : jsval) :
  truthy v = true -> transformEntity v = v.
Proof. intros H. unfold transformEntity. now rewrite H. Qed.

(** C9. [transformResult] wraps an array as [{games: [...]}], with one
    transformed element per input element in the same order, and anything
    else as [{game: ...}]: a document is returned as it is, and [null] or
    [undefined] gives [{game: null}], without an error. *)
Theorem transformResult_envelope :
  (forall l : list jsval,
      games (transformResult (JArr l)) = Some (map transformEntity l)
      /\ game (transformResult (JArr l)) = None
      /\ length (map transformEntity l) = length l
      /\ forall i : nat, map transformEntity l !! i = transformEntity <$> l !! i)
  /\ (forall d : doc,
         transformResult (JDoc d)
         = {| games := None; game := Some (JDoc d);
              gamesCount := None; commentsCount := None |})
  /\ transformResult JNull
     = {| games := None; game := Some JNull;
          gamesCount := None; commentsCount := None |}
  /\ transformResult JUndefined
     = {| games := None; game := Some JNull;
          gamesCount := None; commentsCount := None |}
  /\ (forall e : jsval,
         (forall l, e <> JArr l) ->
         games (transformResult e) = None
         /\ game (transformResult e) = Some (transformEntity e)).
Proof.
  repeat split; try reflexivity.
  - apply length_map.
  - intros i. apply list_lookup_fmap.
  - destruct e; try reflexivity. now destruct (H l).
  - destruct e; try reflexivity. now destruct (H l).
Qed.

End TransformResult.

(* ===================================================================== *)
(** ** Pagination defaults *)
(* ===================================================================== *)

Section Defaults.
Import Games.

Lemma number_or_zero (dflt : Z) : number_or (Some 0) dflt = dflt.
Proof. reflexivity. Qed.

Lemma number_or_nonzero (n dflt : Z) : n <> 0 -> number_or (Some n) dflt = n.
Proof.
  intros Hn. unfold number_or, truthy.
  destruct (Z.eqb_spec n 0); [contradiction | reflexivity].
Qed.

Lemma number_or_never_zero (x : option Z) (dflt : Z) :
  dflt <> 0 -> number_or x dflt <> 0.
Proof.
  intros Hd. destruct x as [n|]; [|exact Hd].
  unfold number_or, truthy. destruct (Z.eqb_spec n 0); simpl; assumption.
Qed.

(** C10. In [list] and in [listByUser] a limit of 0 is replaced by the
    default 20, exactly as a missing limit is, so the two requests run the
    same queries and give the same answer; the limit handed to the store is
    never 0.  An offset of 0 is the default offset. *)
Theorem limit_zero_is_default (c : option string) (o : option Z)
    (t : option string) (l : option Z) :
  let zero := {| creator := c; limit := Some 0; offset := o; tag := t |} in
  let none := {| creator := c; limit := None; offset := o; tag := t |} in
  let off0 := {| creator := c; limit := l; offset := Some 0; tag := t |} in
  let offn := {| creator := c; limit := l; offset := None; tag := t |} in
  Adapter.limit (list_find_params zero) = Some 20
  /\ (forall u, Adapter.limit (listByUser_find_params u zero) = Some 20)
  /\ (forall s, list_ zero s = list_ none s)
  /\ (forall s, listByUser zero s = listByUser none s)
  /\ (forall p, Adapter.limit (list_find_params p) <> Some 0)
  /\ (forall u p, Adapter.limit (listByUser_find_params u p) <> Some 0)
  /\ Adapter.offset (list_find_params off0) = Some 0
  /\ (forall s, list_ off0 s = list_ offn s)
  /\ (forall s, listByUser off0 s = listByUser offn s).
Proof.
  cbv zeta. repeat split; try reflexivity.
  - intros p. simpl. intros [= H]. revert H. now apply number_or_never_zero.
  - intros u p. simpl. intros [= H]. revert H. now apply number_or_never_zero.
Qed.

End Defaults.

(* ===================================================================== *)
(** ** Lookups in the store *)
(* ===================================================================== *)

Section StoreLemmas.
Import Adapter.

Lemma findById_cons (i : option value) (d : doc) (s : store) :
  findById i (d :: s) = if has_id i d then Some d else findById i s.
Proof. unfold findById. simpl. now destruct (has_id i d). Qed.

Lemma findById_has_id (i : option value) (s : store) (d : doc) :
  findById i s = Some d -> has_id i d = true.
Proof.
  induction s as [|x s IH]; [discriminate|].
  rewrite findById_cons. destruct (has_id i x) eqn:Hx; [|exact IH].
  now intros [= <-].
Qed.

Lemma findById_elem (i : option value) (s : store) (d : doc) :
  findById i s = Some d -> In d s.
Proof.
  induction s as [|x s IH]; [discriminate|].
  rewrite findById_cons. destruct (has_id i x).
  - intros [= <-]. now left.
  - intros H. right. now apply IH.
Qed.

Lemma has_id_spec (i : option value) (d : doc) :
  has_id i d = true <-> is_Some i /\ id_of d = i.
Proof.
  unfold has_id. destruct i as [v|].
  - rewrite bool_decide_eq_true. split; [intros ->; eauto | now intros [_ ->]].
  - split; [discriminate | intros [[? [=]] _]].
Qed.

Lemma has_id_own (d : doc) : is_Some (id_of d) -> has_id (id_of d) d = true.
Proof. intros H. apply has_id_spec. auto. Qed.

(** After rewriting the document with id [i], a lookup by [i] finds the new
    version. *)
Lemma findById_replace_first (i : option value) (d d' : doc) (s : store) :
  findById i s = Some d -> has_id i d' = true ->
  findById i (replace_first i d' s) = Some d'.
Proof.
  intros Hf Hd'. induction s as [|x s IH]; [discriminate|].
  rewrite findById_cons in Hf. simpl.
  destruct (has_id i x) eqn:Hx.
  - rewrite findById_cons. now rewrite Hd'.
  - rewrite findById_cons, Hx. auto.
Qed.

Lemma replace_first_length (i : option value) (d' : doc) (s : store) :
  length (replace_first i d' s) = length s.
Proof.
  induction s as [|x s IH]; [reflexivity|].
  simpl. destruct (has_id i x); simpl; congruence.
Qed.

(** Documents with another id are not touched by the rewrite. *)
Lemma findById_replace_first_other (i j : option value) (d' : doc) (s : store) :
  has_id j d' = false -> (forall d, has_id i d = true -> has_id j d = false) ->
  findById j (replace_first i d' s) = findById j s.
Proof.
  intros Hd' Hij. induction s as [|x s IH]; [reflexivity|].
  simpl. destruct (has_id i x) eqn:Hx.
  - rewrite !findById_cons, Hd', (Hij _ Hx). reflexivity.
  - rewrite !findById_cons, IH. reflexivity.
Qed.

Lemma apply_set_lookup_patch (patch d : doc) (k : string) (v : value) :
  patch !! k = Some v -> apply_set patch d !! k = Some v.
Proof. intros H. unfold apply_set. now apply lookup_union_Some_l. Qed.

Lemma apply_set_lookup_frame (patch d : doc) (k : string) :
  patch !! k = None -> apply_set patch d !! k = d !! k.
Proof. intros H. unfold apply_set. now apply lookup_union_r. Qed.

End StoreLemmas.

(* ===================================================================== *)
(** ** update *)
(* ===================================================================== *)

Section Update.
Import Adapter Games.

Lemma getById_id (id : string) (s : store) (g : doc) :
  findById (Some (VStr id)) s = Some g -> id_of g = Some (VStr id).
Proof. intros H. apply findById_has_id, has_id_spec in H. tauto. Qed.

Lemma stamp_lookup_ne (patch : doc) (now : Z) (k : string) :
  k <> "updatedAt" -> stamp patch now !! k = patch !! k.
Proof. intros H. unfold stamp. now rewrite lookup_insert_ne. Qed.

Lemma stamp_lookup_None (patch : doc) (now : Z) (k : string) :
  stamp patch now !! k = None <-> k <> "updatedAt" /\ patch !! k = None.
Proof.
  unfold stamp. destruct (decide (k = "updatedAt")) as [->|Hk].
  - rewrite lookup_insert_eq. split; [discriminate | tauto].
  - rewrite lookup_insert_ne by congruence. tauto.
Qed.

(** The handler on a missing id. *)
Lemma update_handler_not_found id patch actor now (s : store) :
  findById (Some (VStr id)) s = None ->
  update_handler id patch actor now s = (Err (NotFound "Game not found"), s).
Proof. intros H. unfold update_handler, bind, getById. now rewrite H. Qed.

(** The handler on a game of somebody else. *)
Lemma update_handler_forbidden id patch actor now (s : store) (g : doc) :
  findById (Some (VStr id)) s = Some g ->
  g !! "creator" <> Some (VStr actor) ->
  update_handler id patch actor now s = (Err Forbidden, s).
Proof.
  intros Hf Hc. unfold update_handler, bind, getById. rewrite Hf.
  now rewrite bool_decide_eq_true_2.
Qed.

(** The handler run by the owner: what it returns and what it stores. *)
Lemma update_handler_owner id patch actor now (s : store) (g : doc) :
  findById (Some (VStr id)) s = Some g ->
  g !! "creator" = Some (VStr actor) ->
  let g' := apply_set (stamp patch now) g in
  update_handler id patch actor now s
  = if bool_decide (id_of g' = id_of g)
    then (Ok (transformResult (transformDocument (Some g'))),
          replace_first (Some (VStr id)) g' s)
    else (Err (StoreError ImmutableId), s).
Proof.
  intros Hf Hc g'. unfold update_handler, bind, getById. rewrite Hf.
  rewrite bool_decide_eq_false_2 by (intros Hn; now apply Hn).
  unfold adapter_updateById, updateById.
  rewrite (getById_id _ _ _ Hf), Hf. fold g'.
  rewrite <- (getById_id _ _ _ Hf).
  now destruct (bool_decide (id_of g' = id_of g)).
Qed.

(** Every way for the handler to return is the owner's. *)
Lemma update_handler_ok_inv id patch actor now (s s' : store) (g : doc) r :
  findById (Some (VStr id)) s = Some g ->
  update_handler id patch actor now s = (Ok r, s') ->
  let g' := apply_set (stamp patch now) g in
  g !! "creator" = Some (VStr actor)
  /\ id_of g' = Some (VStr id)
  /\ s' = replace_first (Some (VStr id)) g' s
  /\ findById (Some (VStr id)) s' = Some g'.
Proof.
  intros Hf Hu g'.
  destruct (decide (g !! "creator" = Some (VStr actor))) as [Hc|Hc].
  - rewrite (update_handler_owner _ _ _ _ _ _ Hf Hc) in Hu. fold g' in Hu.
    destruct (bool_decide (id_of g' = id_of g)) eqn:Hid; [|discriminate].
    apply bool_decide_eq_true in Hid. rewrite (getById_id _ _ _ Hf) in Hid.
    injection Hu as _ <-. repeat split; try assumption.
    apply findById_replace_first with (d := g); [assumption|].
    apply has_id_spec. eauto.
  - rewrite (update_handler_forbidden _ _ _ _ _ _ Hf Hc) in Hu. discriminate.
Qed.

Lemma update_valid id patch actor now (s : store) :
  valid_patch patch = true ->
  update id patch actor now s = update_handler id patch actor now s.
Proof.
  intros Hv. unfold update, bind, validateUpdateParams. now rewrite Hv.
Qed.

Lemma update_invalid id patch actor now (s : store) :
  valid_patch patch = false ->
  update id patch actor now s = (Err ValidationError, s).
Proof.
  intros Hv. unfold update, bind, validateUpdateParams. now rewrite Hv.
Qed.

Lemma update_ok_inv id patch actor now (s s' : store) r :
  update id patch actor now s = (Ok r, s') ->
  update_handler id patch actor now s = (Ok r, s').
Proof.
  destruct (valid_patch patch) eqn:Hv.
  - now rewrite update_valid.
  - now rewrite update_invalid.
Qed.

(** C5. When the actor is not the creator of the stored game, the handler
    of [update] throws [ForbiddenError] and the store after the call is the
    store before it.  For the whole action: the store is unchanged whatever
    the patch, and the error is [Forbidden] as soon as the patch gets past
    the parameter schema. *)
Theorem update_by_non_owner_forbidden id patch actor now (s : store)
    (g : doc) :
  findById (Some (VStr id)) s = Some g ->
  g !! "creator" <> Some (VStr actor) ->
  update_handler id patch actor now s = (Err Forbidden, s)
  /\ snd (update id patch actor now s) = s
  /\ (valid_patch patch = true ->
      update id patch actor now s = (Err Forbidden, s)).
Proof.
  intros Hf Hc.
  pose proof (update_handler_forbidden id patch actor now s g Hf Hc) as Hh.
  split; [exact Hh|]. split.
  - destruct (valid_patch patch) eqn:Hv.
    + now rewrite update_valid, Hh.
    + now rewrite update_invalid.
  - intros Hv. now rewrite update_valid.
Qed.

Lemma update_by_non_owner_forbidden_witness :
  findById (Some (VStr "g1")) Samples.five_games = Some Samples.g1
  /\ Samples.g1 !! "creator" <> Some (VStr "u2")
  /\ update_handler "g1" {["name" := VStr "X"]} "u2" 900 Samples.five_games
     = (Err Forbidden, Samples.five_games).
Proof.
  assert (H1 : findById (Some (VStr "g1")) Samples.five_games = Some Samples.g1)
    by reflexivity.
  assert (H2 : Samples.g1 !! "creator" <> Some (VStr "u2")) by discriminate.
  split; [exact H1|]. split; [exact H2|].
  exact (proj1 (update_by_non_owner_forbidden "g1" {["name" := VStr "X"]}
                  "u2" 900 Samples.five_games Samples.g1 H1 H2)).
Defined.

End Update.

Section UpdateMerge.
Import Adapter Games.

(** C3, as the code has it.  After a successful [update] the stored creator
    is the one the patch carries, if it carries one, and the creator from
    before the call otherwise: a patch without a [creator] field never
    changes the creator. *)
Theorem update_creator_from_patch_or_kept id patch actor now
    (s s' : store) (g : doc) r :
  findById (Some (VStr id)) s = Some g ->
  update id patch actor now s = (Ok r, s') ->
  exists g' : doc,
    findById (Some (VStr id)) s' = Some g'
    /\ g' !! "creator" = match patch !! "creator" with
                         | Some v => Some v
                         | None => g !! "creator"
                         end
    /\ (patch !! "creator" = None -> g' !! "creator" = g !! "creator").
Proof.
  intros Hf Hu. apply update_ok_inv in Hu.
  destruct (update_handler_ok_inv _ _ _ _ _ _ _ _ Hf Hu) as (_ & _ & _ & Hs').
  eexists. split; [exact Hs'|].
  assert (Hst : stamp patch now !! "creator" = patch !! "creator")
    by (now apply stamp_lookup_ne).
  destruct (patch !! "creator") as [v|] eqn:Hp.
  - split; [|discriminate]. now apply apply_set_lookup_patch.
  - assert (Hk : apply_set (stamp patch now) g !! "creator" = g !! "creator")
      by (now apply apply_set_lookup_frame).
    split; [exact Hk | intros _; exact Hk].
Qed.

Lemma update_creator_from_patch_or_kept_witness :
  exists g' : doc,
    findById (Some (VStr "g1"))
      (snd (update "g1" {["description" := VStr "x"]} "u1" 900
              Samples.five_games)) = Some g'
    /\ g' !! "creator" = Samples.g1 !! "creator".
Proof.
  pose (g := apply_set (stamp {["description" := VStr "x"]} 900) Samples.g1).
  assert (Hf : findById (Some (VStr "g1")) Samples.five_games = Some Samples.g1)
    by reflexivity.
  assert (Hu : update "g1" {["description" := VStr "x"]} "u1" 900
                 Samples.five_games
               = (Ok (transformResult (transformDocument (Some g))),
                  replace_first (Some (VStr "g1")) g Samples.five_games))
    by reflexivity.
  destruct (update_creator_from_patch_or_kept _ _ _ _ _ _ _ _ Hf Hu)
    as (g' & H1 & _ & H3).
  exists g'. split; [exact H1 | exact (H3 eq_refl)].
Defined.

(** C3 as stated fails: the owner of [g1] sends the patch
    [{creator: "u2"}]; the schema lets it through, the call succeeds, and
    the stored creator changes from [u1] to [u2]. *)
Lemma update_overwrites_creator :
  let patch : doc := {["creator" := VStr "u2"]} in
  let g1' : doc :=
    <["creator" := VStr "u2"]> (<["updatedAt" := VDate 900]> Samples.g1) in
  valid_patch patch = true
  /\ findById (Some (VStr "g1")) [Samples.g1] = Some Samples.g1
  /\ Samples.g1 !! "creator" = Some (VStr "u1")
  /\ update "g1" patch "u1" 900 [Samples.g1]
     = (Ok (transformResult (JDoc (filterFields g1'))), [g1'])
  /\ findById (Some (VStr "g1")) [g1'] = Some g1'
  /\ g1' !! "creator" = Some (VStr "u2")
  /\ g1' !! "creator" <> Samples.g1 !! "creator".
Proof.
  cbv zeta. split_and!; try reflexivity. discriminate.
Qed.

(** C6. [update] merges its patch into the stored game.  After every
    successful call, each field of the stored game that is not in the patch
    object handed to [$set] (the patch of the request, with [updatedAt]
    stamped into it on line 111) keeps its value, each field of that object
    has the value given there, and the other games are as before.  So a
    field other than [updatedAt] that the request's patch does not name is
    unchanged; with the patch [{description: "x"}] the name stays.  The call
    does succeed for the owner with a patch that passes the schema and
    leaves [_id] alone. *)
Theorem update_partial_merge id patch actor now (s : store) (g : doc) :
  findById (Some (VStr id)) s = Some g ->
  (forall (r : response) (s' : store),
      update id patch actor now s = (Ok r, s') ->
      exists g' : doc,
        findById (Some (VStr id)) s' = Some g'
        /\ (forall k, stamp patch now !! k = None -> g' !! k = g !! k)
        /\ (forall k v, stamp patch now !! k = Some v -> g' !! k = Some v)
        /\ (forall k, k <> "updatedAt" -> patch !! k = None ->
                      g' !! k = g !! k)
        /\ (forall x, patch = {["description" := x]} ->
                      g' !! "name" = g !! "name")
        /\ length s' = length s
        /\ (forall j, j <> id ->
                      findById (Some (VStr j)) s' = findById (Some (VStr j)) s))
  /\ (g !! "creator" = Some (VStr actor) ->
      valid_patch patch = true ->
      patch !! "_id" = None ->
      exists (r : response) (s' : store),
        update id patch actor now s = (Ok r, s')).
Proof.
  intros Hf. set (g' := apply_set (stamp patch now) g).
  assert (Hframe : forall k, stamp patch now !! k = None -> g' !! k = g !! k)
    by (intros k Hk; now apply apply_set_lookup_frame).
  split.
  - intros r s' Hu. apply update_ok_inv in Hu.
    destruct (update_handler_ok_inv _ _ _ _ _ _ _ _ Hf Hu)
      as (_ & Hid & -> & Hs').
    fold g' in Hid, Hs' |- *. exists g'. split_and!.
    + exact Hs'.
    + exact Hframe.
    + intros k v Hk. now apply apply_set_lookup_patch.
    + intros k Hk Hp. apply Hframe, stamp_lookup_None. now split.
    + intros x ->. apply Hframe, stamp_lookup_None.
      split; [discriminate | now apply lookup_singleton_ne].
    + apply replace_first_length.
    + intros j Hj. apply findById_replace_first_other.
      * apply not_true_is_false. rewrite has_id_spec. intros [_ Hjg].
        unfold id_of in *. congruence.
      * intros d Hd. apply not_true_is_false. rewrite has_id_spec.
        apply has_id_spec in Hd. intros [_ Hjd]. destruct Hd as [_ Hd].
        congruence.
  - intros Hc Hv Hid.
    assert (Hg' : id_of g' = id_of g).
    { unfold id_of. apply Hframe, stamp_lookup_None.
      split; [discriminate | exact Hid]. }
    pose proof (update_handler_owner id patch actor now s g Hf Hc) as Hu.
    cbv zeta in Hu. fold g' in Hu.
    rewrite bool_decide_eq_true_2 in Hu by exact Hg'.
    eexists _, _. rewrite update_valid by exact Hv. exact Hu.
Qed.

Lemma update_partial_merge_witness :
  exists (r : response) (s' : store) (g' : doc),
    update "g1" {["description" := VStr "x"]} "u1" 900 Samples.five_games
    = (Ok r, s')
    /\ findById (Some (VStr "g1")) s' = Some g'
    /\ g' !! "description" = Some (VStr "x")
    /\ g' !! "name" = Samples.g1 !! "name".
Proof.
  destruct (update_partial_merge "g1" {["description" := VStr "x"]} "u1" 900
              Samples.five_games Samples.g1 ltac:(reflexivity))
    as [Hmerge Hok].
  destruct (Hok ltac:(reflexivity) ltac:(reflexivity) ltac:(reflexivity))
    as (r & s' & Hu).
  destruct (Hmerge r s' Hu) as (g' & Hs' & _ & Hset & _ & Hname & _).
  exists r, s', g'. split_and!; [exact Hu | exact Hs' | |].
  - apply Hset. reflexivity.
  - exact (Hname (VStr "x") eq_refl).
Defined.

End UpdateMerge.

(* ===================================================================== *)
(** ** create: the slug *)
(* ===================================================================== *)

Section Radix36.

Lemma string_of_list_ascii_length (l : list ascii) :
  String.length (string_of_list_ascii l) = length l.
Proof. induction l as [|c l IH]; simpl; congruence. Qed.

Lemma digit36_is_base36 (d : Z) :
  0 <= d < 36 -> is_base36_char (digit36 d) = true.
Proof.
  intros Hd. unfold is_base36_char, digit36.
  destruct (Z.ltb_spec d 10).
  - rewrite nat_ascii_embedding by lia.
    rewrite Z2Nat.id by lia. apply orb_true_iff. left.
    apply andb_true_iff. split; apply Z.leb_le; lia.
  - rewrite nat_ascii_embedding by lia.
    rewrite Z2Nat.id by lia. apply orb_true_iff. right.
    apply andb_true_iff. split; apply Z.leb_le; lia.
Qed.

Lemma digits36_base36 (fuel : nat) :
  forall n, 0 <= n -> forallb is_base36_char (digits36 fuel n) = true.
Proof.
  induction fuel as [|f IH]; intros n Hn; [reflexivity|].
  simpl. destruct (Z.ltb_spec n 36).
  - simpl. rewrite digit36_is_base36 by lia. reflexivity.
  - rewrite forallb_app, IH by (apply Z.div_pos; lia).
    simpl. rewrite digit36_is_base36; [reflexivity|].
    apply Z.mod_pos_bound. lia.
Qed.

(** A number below [36 ^ k] has at most [k] digits, and at least one. *)
Lemma digits36_length_le (fuel : nat) :
  forall (k : nat) n, (1 <= k <= fuel)%nat -> 0 <= n < 36 ^ Z.of_nat k ->
    (1 <= length (digits36 fuel n) <= k)%nat.
Proof.
  induction fuel as [|f IH]; intros k n Hk Hn; [lia|].
  simpl. destruct (Z.ltb_spec n 36); [simpl; lia|].
  rewrite length_app. simpl.
  destruct k as [|k]; [lia|].
  destruct k as [|k]; [change (36 ^ Z.of_nat 1) with 36 in Hn; lia|].
  assert (Hdiv : 0 <= n / 36 < 36 ^ Z.of_nat (S k)).
  { split; [apply Z.div_pos; lia|].
    apply Z.div_lt_upper_bound; [lia|].
    rewrite (Nat2Z.inj_succ (S k)), Z.pow_succ_r in Hn by lia. lia. }
  specialize (IH (S k) (n / 36) ltac:(lia) Hdiv). lia.
Qed.

(** A number between [36 ^ (k - 1)] and [36 ^ k] has exactly [k] digits. *)
Lemma digits36_length_eq (fuel : nat) :
  forall (k : nat) n, (k < fuel)%nat ->
    36 ^ Z.of_nat k <= n < 36 ^ Z.of_nat (S k) ->
    length (digits36 fuel n) = S k.
Proof.
  induction fuel as [|f IH]; intros k n Hk Hn; [lia|].
  simpl. destruct k as [|k].
  - change (36 ^ Z.of_nat 1) with 36 in Hn.
    destruct (Z.ltb_spec n 36); [reflexivity | lia].
  - assert (Hlow : 36 <= 36 ^ Z.of_nat (S k)).
    { rewrite Nat2Z.inj_succ, Z.pow_succ_r by lia.
      assert (0 < 36 ^ Z.of_nat k) by (apply Z.pow_pos_nonneg; lia). lia. }
    destruct (Z.ltb_spec n 36); [lia|].
    rewrite length_app. simpl.
    rewrite (IH k (n / 36)); [lia | lia |].
    rewrite (Nat2Z.inj_succ (S k)) in Hn.
    rewrite (Z.pow_succ_r _ (Z.of_nat (S k))) in Hn by lia.
    rewrite (Nat2Z.inj_succ k) in Hn |- *.
    rewrite (Z.pow_succ_r _ (Z.of_nat k)) in Hn |- * by lia.
    split.
    + apply Z.div_le_lower_bound; lia.
    + apply Z.div_lt_upper_bound; lia.
Qed.

Lemma to_int32_small (x : Z) : 0 <= x < 2 ^ 31 -> to_int32 x = x.
Proof.
  intros Hx. unfold to_int32. rewrite Z.mod_small; lia.
Qed.

(** Above [2 ^ 31] the bit operation wraps into the negative numbers. *)
Lemma to_int32_wraps (x : Z) :
  2 ^ 31 <= x < 36 ^ 6 -> to_int32 x = x - 2 ^ 32.
Proof.
  intros Hx. unfold to_int32.
  replace (x + 2 ^ 31) with ((x - 2 ^ 31) + 1 * 2 ^ 32) by lia.
  rewrite Z.mod_add by lia. rewrite Z.mod_small; lia.
Qed.

Lemma to_string36_nonneg (n : Z) :
  0 <= n -> to_string36 n = string_of_list_ascii (digits36 13 n).
Proof.
  intros Hn. unfold to_string36. destruct (Z.ltb_spec n 0); [lia | reflexivity].
Qed.

(** The suffix of the slug for a draw below [2 ^ 31]. *)
Lemma suffix_shape (rnd : Z) :
  0 <= rnd < 2 ^ 31 ->
  let suffix := to_string36 (to_int32 rnd) in
  suffix = string_of_list_ascii (digits36 13 rnd)
  /\ (1 <= String.length suffix <= 6)%nat
  /\ forallb is_base36_char (list_ascii_of_string suffix) = true
  /\ (36 ^ 5 <= rnd -> String.length suffix = 6%nat)
  /\ (rnd < 36 ^ 5 -> (String.length suffix < 6)%nat).
Proof.
  intros Hr suffix. unfold suffix.
  rewrite to_int32_small, to_string36_nonneg by lia.
  rewrite string_of_list_ascii_length, list_ascii_of_string_of_list_ascii.
  split_and!.
  - reflexivity.
  - apply (digits36_length_le 13 6 rnd); lia.
  - apply (digits36_length_le 13 6 rnd); lia.
  - apply digits36_base36. lia.
  - intros H5. apply (digits36_length_eq 13 5 rnd); lia.
  - intros H5.
    assert ((1 <= length (digits36 13 rnd) <= 5)%nat); [|lia].
    apply (digits36_length_le 13 5 rnd); lia.
Qed.

End Radix36.

Section CreateSlug.
Import Adapter Games.

Variable slug_lower : string -> string.

Lemma new_entity_id game actor rnd tc tu :
  id_of (new_entity slug_lower game actor rnd tc tu) = game !! "_id".
Proof.
  unfold id_of, new_entity. now rewrite !lookup_insert_ne by discriminate.
Qed.

Lemma new_entity_slug game actor rnd tc tu :
  new_entity slug_lower game actor rnd tc tu !! "slug"
  = Some (VStr (make_slug slug_lower (name_of game) rnd)).
Proof.
  unfold new_entity. rewrite !lookup_insert_ne by discriminate.
  apply lookup_insert_eq.
Qed.

Lemma valid_entity_name (game : doc) :
  valid_entity game = true -> game !! "name" = Some (VStr (name_of game)).
Proof.
  unfold valid_entity, string_min1, name_of. intros H.
  apply andb_true_iff in H as [H _].
  destruct (game !! "name") as [[| | |n| |]|]; try discriminate. reflexivity.
Qed.

(** A valid entity without an id of its own is stored under the fresh id. *)
Lemma create_ok game actor rnd tc tu fresh (s : store) :
  valid_entity game = true ->
  game !! "_id" = None ->
  findById (Some (VStr fresh)) s = None ->
  let d :=
    <["_id" := VStr fresh]> (new_entity slug_lower game actor rnd tc tu) in
  create slug_lower game actor rnd tc tu fresh s
  = (Ok (transformResult (transformDocument (Some d))), s ++ [d]).
Proof.
  intros Hv Hid Hfresh d.
  unfold create, bind, validateEntity. rewrite Hv. simpl.
  unfold adapter_insert, insert. rewrite new_entity_id, Hid.
  fold d. replace (id_of d) with (Some (VStr fresh))
    by (unfold id_of, d; now rewrite lookup_insert_eq).
  now rewrite Hfresh.
Qed.

(** C4, as the code has it.  For a valid entity and a draw below [2 ^ 31]
    the game is stored with the slug [slug(name) + "-" + suffix], where the
    suffix is the draw written in radix 36 without padding: between one and
    six characters of [[0-9a-z]], six exactly when the draw is at least
    [36 ^ 5]. *)
Theorem create_slug_shape game actor rnd tc tu fresh (s : store) :
  valid_entity game = true ->
  game !! "_id" = None ->
  findById (Some (VStr fresh)) s = None ->
  0 <= rnd < 2 ^ 31 ->
  exists (r : response) (d : doc) (suffix : string),
    create slug_lower game actor rnd tc tu fresh s = (Ok r, s ++ [d])
    /\ game !! "name" = Some (VStr (name_of game))
    /\ d !! "slug"
       = Some (VStr (slug_lower (name_of game) ++ "-" ++ suffix)%string)
    /\ suffix = string_of_list_ascii (digits36 13 rnd)
    /\ (1 <= String.length suffix <= 6)%nat
    /\ forallb is_base36_char (list_ascii_of_string suffix) = true
    /\ (36 ^ 5 <= rnd -> String.length suffix = 6%nat)
    /\ (rnd < 36 ^ 5 -> (String.length suffix < 6)%nat).
Proof.
  intros Hv Hid Hfresh Hr.
  destruct (suffix_shape rnd Hr) as (Hs & Hlen & Hch & H6 & Hlt).
  eexists _, _, (to_string36 (to_int32 rnd)). split_and!.
  - now apply create_ok.
  - now apply valid_entity_name.
  - rewrite lookup_insert_ne by discriminate. apply new_entity_slug.
  - exact Hs.
  - apply Hlen.
  - apply Hlen.
  - exact Hch.
  - exact H6.
  - exact Hlt.
Qed.

End CreateSlug.

Section CreateExamples.
Import Adapter Games.

Lemma create_slug_shape_witness :
  exists (r : response) (d : doc),
    create Samples.to_lower Samples.chess "A" 1000000 10 11 "g9"
      Samples.five_games = (Ok r, Samples.five_games ++ [d])
    /\ d !! "slug" = Some (VStr "chess-lfls").
Proof.
  destruct (create_slug_shape Samples.to_lower Samples.chess "A" 1000000 10 11
              "g9" Samples.five_games
              ltac:(reflexivity) ltac:(reflexivity) ltac:(reflexivity)
              ltac:(lia))
    as (r & d & suffix & Hc & _ & Hslug & Hsuf & _).
  exists r, d. split; [exact Hc|]. rewrite Hslug, Hsuf. reflexivity.
Defined.

(** C4 as stated fails: with the draw 1000000 the game "Chess" gets the
    slug [chess-lfls], whose suffix has four characters, so the slug does
    not match [chess-[0-9a-z]{6}]. *)
Lemma create_slug_suffix_short :
  let d : doc :=
    <["_id" := VStr "g9"]>
      (new_entity Samples.to_lower Samples.chess "A" 1000000 10 11) in
  valid_entity Samples.chess = true
  /\ 0 <= 1000000 < 36 ^ 6
  /\ create Samples.to_lower Samples.chess "A" 1000000 10 11 "g9" []
     = (Ok (transformResult (JDoc (filterFields d))), [d])
  /\ d !! "slug" = Some (VStr "chess-lfls")
  /\ Samples.matches_slug_pattern "chess" "chess-lfls" = false
  /\ Samples.matches_slug_pattern "chess" "chess-0lfls9" = true.
Proof.
  cbv zeta. split_and!; try reflexivity; lia.
Qed.

(** The draws from [2 ^ 31] on come out negative: the suffix then starts
    with a minus sign. *)
Lemma make_slug_negative_suffix :
  2 ^ 31 < 36 ^ 6
  /\ make_slug Samples.to_lower "Chess" (2 ^ 31) = "chess--zik0zk"
  /\ make_slug Samples.to_lower "Chess" (36 ^ 6 - 1) = "chess--z141z5".
Proof. split_and!; [lia | reflexivity | reflexivity]. Qed.

End CreateExamples.

(* ===================================================================== *)
(** ** list and listByUser *)
(* ===================================================================== *)

Section Listing.
Import Adapter Games.

Lemma insert_sorted_length keys (x : doc) (l : list doc) :
  length (insert_sorted keys x l) = S (length l).
Proof.
  induction l as [|y l IH]; [reflexivity|].
  simpl. destruct (strictly_before keys y x); simpl; congruence.
Qed.

Lemma sort_docs_length keys (l : list doc) :
  length (sort_docs keys l) = length l.
Proof.
  induction l as [|x l IH]; [reflexivity|].
  simpl. rewrite insert_sorted_length. congruence.
Qed.

Lemma insert_sorted_perm keys (x : doc) (l : list doc) :
  Permutation (insert_sorted keys x l) (x :: l).
Proof.
  induction l as [|y l IH]; [reflexivity|].
  simpl. destruct (strictly_before keys y x); [|reflexivity].
  rewrite IH. apply perm_swap.
Qed.

(** Sorting only reorders the rows. *)
Lemma sort_docs_perm keys (l : list doc) : Permutation (sort_docs keys l) l.
Proof.
  induction l as [|x l IH]; [reflexivity|].
  simpl. rewrite insert_sorted_perm. now constructor.
Qed.

(** The number of rows a query returns. *)
Lemma find_length (p : find_params) (s : store) :
  length (find p s)
  = length (apply_limit (Adapter.limit p)
              (apply_offset (Adapter.offset p)
                 (List.filter (matches (query_of p)) s))).
Proof.
  unfold find, apply_limit, apply_offset.
  destruct (Adapter.limit p) as [l|], (Adapter.offset p) as [o|];
    case_paging;
    rewrite ?length_take, ?length_drop, ?sort_docs_length; reflexivity.
Qed.

(** Without limit and offset the count is the number of matching rows. *)
Lemma count_all (p : find_params) (s : store) :
  Adapter.limit p = None ->
  Adapter.offset p = None \/ Adapter.offset p = Some 0 ->
  count p s = length (List.filter (matches (query_of p)) s).
Proof.
  intros Hl Ho. unfold count. rewrite find_length, Hl.
  destruct Ho as [-> | ->]; reflexivity.
Qed.

Lemma remove_pagination_query (p : find_params) :
  query_of (remove_pagination p) = query_of p
  /\ sort (remove_pagination p) = sort p.
Proof. split; reflexivity. Qed.

(** A limit that is a number other than 0 is cleared; an offset is cleared
    or was 0 already. *)
Lemma remove_pagination_cleared (p : find_params) (l o : Z) :
  Adapter.limit p = Some l -> Adapter.offset p = Some o -> l <> 0 ->
  Adapter.limit (remove_pagination p) = None
  /\ (Adapter.offset (remove_pagination p) = None
      \/ Adapter.offset (remove_pagination p) = Some 0).
Proof.
  intros Hl Ho Hne. unfold remove_pagination. simpl. rewrite Hl, Ho. simpl.
  destruct (Z.eqb_spec l 0); [contradiction|]. simpl. split; [reflexivity|].
  destruct (Z.eqb_spec o 0) as [->|]; simpl; auto.
Qed.

(** The relation the handlers ask to populate has no rule. *)
Lemma creator_has_no_populate_rule : "creator" ∉ settings_populates.
Proof.
  unfold settings_populates. rewrite elem_of_cons.
  intros [H | H]; [discriminate | now apply not_elem_of_nil in H].
Qed.

Lemma transformEntity_docs (l : list doc) :
  map transformEntity (map JDoc l) = map JDoc l.
Proof.
  induction l as [|d l IH]; [reflexivity|].
  simpl. rewrite IH. reflexivity.
Qed.

(** [list], written out. *)
Lemma list_eval (p : list_params) (s : store) :
  list_ p s
  = (Ok {| games := Some (map JDoc (transformDocuments
                                       (find (list_find_params p) s)));
           game := None;
           gamesCount := Some (count (remove_pagination (list_find_params p)) s);
           commentsCount := None |}, s).
Proof.
  unfold list_, bind, adapter_find, adapter_count, ret. simpl.
  now rewrite transformEntity_docs.
Qed.

(** [listByUser], written out. *)
Lemma listByUser_eval (p : list_params) (c : string) (s : store) :
  creator p = Some c ->
  listByUser p s
  = (Ok {| games := Some (map JDoc (transformDocuments
                                       (find (listByUser_find_params c p) s)));
           game := None;
           gamesCount := None;
           commentsCount :=
             Some (count (remove_pagination (listByUser_find_params c p)) s) |},
     s).
Proof.
  intros Hc. unfold listByUser. rewrite Hc.
  unfold bind, adapter_find, adapter_count, ret. simpl.
  now rewrite transformEntity_docs.
Qed.

Lemma list_count_params (p : list_params) :
  Adapter.limit (remove_pagination (list_find_params p)) = None
  /\ (Adapter.offset (remove_pagination (list_find_params p)) = None
      \/ Adapter.offset (remove_pagination (list_find_params p)) = Some 0).
Proof.
  apply remove_pagination_cleared
    with (l := number_or (Games.limit p) 20) (o := number_or (Games.offset p) 0);
    try reflexivity.
  now apply number_or_never_zero.
Qed.

(** C7. The count of [list] comes from the parameters of the row fetch with
    the same query and with limit and offset cleared, so it is the number of
    all stored games matching the filter, whatever the pagination.  The page
    has [min(limit, matching - offset)] rows; with [limit = 2] and
    [offset = 0] (or none) against five matching games it has two rows and
    the count is five. *)
Theorem list_count_ignores_pagination (p : list_params) (s : store) :
  let params := list_find_params p in
  let countParams := remove_pagination params in
  let matching := List.filter (matches (list_query p)) s in
  query_of countParams = query_of params
  /\ Adapter.limit countParams = None
  /\ (Adapter.offset countParams = None
      \/ Adapter.offset countParams = Some 0)
  /\ exists rows : list doc,
      list_ p s
      = (Ok {| games := Some (map JDoc rows); game := None;
               gamesCount := Some (length matching);
               commentsCount := None |}, s)
      /\ (forall L O,
             number_or (Games.limit p) 20 = L ->
             number_or (Games.offset p) 0 = O -> 0 < L -> 0 <= O ->
             length rows
             = Nat.min (Z.to_nat L) (length matching - Z.to_nat O))
      /\ (Games.limit p = Some 2 ->
          Games.offset p = Some 0 \/ Games.offset p = None ->
          length matching = 5%nat ->
          length (map JDoc rows) = 2%nat).
Proof.
  intros params countParams matching.
  destruct (list_count_params p) as [Hl Ho].
  split; [reflexivity|]. split; [exact Hl|]. split; [exact Ho|].
  exists (transformDocuments (find params s)).
  assert (Hlen : forall L O,
             number_or (Games.limit p) 20 = L ->
             number_or (Games.offset p) 0 = O -> 0 < L -> 0 <= O ->
             length (transformDocuments (find params s))
             = Nat.min (Z.to_nat L) (length matching - Z.to_nat O)).
  { intros L O HL HO HLpos HOpos.
    unfold transformDocuments. rewrite length_map, find_length.
    unfold params. simpl. rewrite HL, HO. fold matching.
    replace (0 <? L) with true by (symmetry; apply Z.ltb_lt; lia).
    rewrite length_take.
    destruct (Z.ltb_spec 0 O).
    - now rewrite length_drop.
    - replace O with 0 by lia. simpl. now rewrite Nat.sub_0_r. }
  split_and!.
  - rewrite list_eval. fold params countParams.
    rewrite (count_all countParams s Hl Ho). reflexivity.
  - exact Hlen.
  - intros H2 H0 H5. rewrite length_map.
    rewrite (Hlen 2 0); [rewrite H5; reflexivity | now rewrite H2 | | lia | lia].
    destruct H0 as [-> | ->]; reflexivity.
Qed.

Lemma list_count_ignores_pagination_witness :
  exists rows : list doc,
    list_ {| creator := None; Games.limit := Some 2; Games.offset := Some 0;
             tag := None |} Samples.five_games
    = (Ok {| games := Some (map JDoc rows); game := None;
             gamesCount := Some 5%nat; commentsCount := None |},
       Samples.five_games)
    /\ length (map JDoc rows) = 2%nat.
Proof.
  destruct (list_count_ignores_pagination
              {| creator := None; Games.limit := Some 2;
                 Games.offset := Some 0; tag := None |} Samples.five_games)
    as (_ & _ & _ & rows & Hl & _ & H2).
  exists rows. split; [exact Hl|].
  apply H2; [reflexivity | left; reflexivity | reflexivity].
Defined.

End Listing.

Section ListByUser.
Import Adapter Games.

Lemma filter_none {A} (f : A -> bool) (l : list A) :
  Forall (fun x => f x = false) l -> List.filter f l = [].
Proof.
  induction 1 as [|x l Hx _ IH]; [reflexivity|].
  simpl. now rewrite Hx.
Qed.

(** Games without a [game] field are never listed by [listByUser]. *)
Lemma listByUser_without_game_field (p : list_params) (c : string) (s : store) :
  creator p = Some c ->
  Forall (fun d : doc => d !! "game" = None) s ->
  listByUser p s
  = (Ok {| games := Some []; game := None; gamesCount := None;
           commentsCount := Some 0%nat |}, s).
Proof.
  intros Hc Hs. rewrite (listByUser_eval p c s Hc).
  assert (Hnone : List.filter (matches (query_of (listByUser_find_params c p))) s
                  = []).
  { apply filter_none. eapply Forall_impl; [exact Hs|].
    intros d Hd. simpl. unfold cond_matches, field_matches. simpl.
    now rewrite Hd. }
  assert (Hfind : forall q, query_of q = query_of (listByUser_find_params c p) ->
                            find q s = []).
  { intros q Hq. apply length_zero_iff_nil.
    rewrite find_length, Hq, Hnone.
    unfold apply_limit, apply_offset.
    destruct (Adapter.limit q) as [l|], (Adapter.offset q) as [o|];
      case_paging; rewrite ?length_take, ?length_drop; simpl; lia. }
  unfold count. rewrite !Hfind by reflexivity. reflexivity.
Qed.

(** C1, on the code.  User [u1] created two of the five stored games, yet
    [listByUser] for [u1] answers with no game and a count of 0, and the
    count sits in the field [commentsCount]: the query of line 237 tests the
    field [game], which no stored game has, not the field [creator].  A
    game of another user that happens to carry [game: "u1"] is what the
    action lists. *)
Theorem listByUser_filters_on_game_field :
  let p := {| creator := Some "u1"; Games.limit := None;
              Games.offset := None; tag := None |} in
  let stray : doc := <["game" := VStr "u1"]> Samples.g3 in
  length (List.filter
            (fun d : doc => bool_decide (d !! "creator" = Some (VStr "u1")))
            Samples.five_games) = 2%nat
  /\ listByUser p Samples.five_games
     = (Ok {| games := Some []; game := None; gamesCount := None;
              commentsCount := Some 0%nat |}, Samples.five_games)
  /\ stray !! "creator" = Some (VStr "u2")
  /\ listByUser p [Samples.g1; stray]
     = (Ok {| games := Some [JDoc (filterFields stray)]; game := None;
              gamesCount := None; commentsCount := Some 1%nat |},
        [Samples.g1; stray]).
Proof.
  cbv zeta. split_and!; reflexivity.
Qed.

End ListByUser.

(* ===================================================================== *)
(** ** Cache keys *)
(* ===================================================================== *)

Section CacheKeys.
Import Adapter Games.

Context {K : Type}.
Variable keygen : string -> list (option value) -> K.

Lemma set_opt_lookup_ne (k k' : string) (v : option value) (o : doc) :
  k <> k' -> set_opt k v o !! k' = o !! k'.
Proof.
  intros Hk. destruct v; simpl; [now rewrite lookup_insert_ne | reflexivity].
Qed.

Lemma set_opt_lookup_eq (k : string) (v : option value) (o : doc) :
  o !! k = None -> set_opt k v o !! k = v.
Proof.
  intros Ho. destruct v; simpl; [now rewrite lookup_insert_eq | exact Ho].
Qed.

(** What the cacher finds under the entries of [list]. *)
Lemma params_object_lookup (p : list_params) :
  params_object p !! "creator" = VStr <$> creator p
  /\ params_object p !! "limit" = VNum <$> Games.limit p
  /\ params_object p !! "offset" = VNum <$> Games.offset p
  /\ params_object p !! "tag" = VStr <$> tag p.
Proof.
  unfold params_object. split_and!.
  - rewrite set_opt_lookup_eq; [reflexivity|].
    now rewrite !set_opt_lookup_ne by discriminate.
  - rewrite set_opt_lookup_ne by discriminate.
    rewrite set_opt_lookup_eq; [reflexivity|].
    now rewrite !set_opt_lookup_ne by discriminate.
  - rewrite !(set_opt_lookup_ne _ "offset") by discriminate.
    rewrite set_opt_lookup_eq; [reflexivity|].
    now rewrite !set_opt_lookup_ne by discriminate.
  - rewrite !(set_opt_lookup_ne _ "tag") by discriminate.
    now rewrite set_opt_lookup_eq.
Qed.

(** The key of a [list] request is made from the user id, the creator, the
    limit and the offset, and from nothing else. *)
Lemma list_cache_key_inputs (p : list_params) (meta : doc) :
  list_cache_key keygen p meta
  = keygen "games.list"
      [meta !! "userID"; VStr <$> creator p;
       VNum <$> Games.limit p; VNum <$> Games.offset p].
Proof.
  destruct (params_object_lookup p) as (Hc & Hl & Ho & _).
  unfold list_cache_key, cache_key, list_cache_keys. simpl.
  unfold getParamMetaValue. simpl. now rewrite Hc, Hl, Ho.
Qed.

(** Requests that agree on creator, limit and offset share their key,
    whatever their tags. *)
Lemma list_cache_key_tag_blind (c : option string) (l o : option Z)
    (t1 t2 : option string) (meta : doc) :
  list_cache_key keygen
    {| creator := c; Games.limit := l; Games.offset := o; tag := t1 |} meta
  = list_cache_key keygen
      {| creator := c; Games.limit := l; Games.offset := o; tag := t2 |} meta.
Proof. now rewrite !list_cache_key_inputs. Qed.

(** The entries of [listByUser] name [game], which is no parameter of the
    action: its key does not depend on the creator asked for. *)
Lemma listByUser_cache_key_creator_blind (c1 c2 : option string)
    (l o : option Z) (t : option string) (meta : doc) :
  listByUser_cache_key keygen
    {| creator := c1; Games.limit := l; Games.offset := o; tag := t |} meta
  = listByUser_cache_key keygen
      {| creator := c2; Games.limit := l; Games.offset := o; tag := t |} meta.
Proof.
  unfold listByUser_cache_key, cache_key, listByUser_cache_keys. simpl.
  unfold getParamMetaValue. simpl.
  pose proof (params_object_lookup
                {| creator := c1; Games.limit := l; Games.offset := o;
                   tag := t |}) as (_ & Hl1 & Ho1 & _).
  pose proof (params_object_lookup
                {| creator := c2; Games.limit := l; Games.offset := o;
                   tag := t |}) as (_ & Hl2 & Ho2 & _).
  assert (Hg : forall p, params_object p !! "game" = None).
  { intros p. unfold params_object.
    now rewrite !set_opt_lookup_ne by discriminate. }
  now rewrite Hl1, Ho1, Hl2, Ho2, !Hg.
Qed.

(** C2, on the code.  The requests [list {tag: "board"}] and
    [list {tag: "party"}] of one user run different queries and have
    different answers (two games against one), but they get the same cache
    key, whatever the key generator does with the listed entries: [tag] is
    not among the entries of line 145. *)
Theorem list_cache_key_ignores_tag (meta : doc) :
  let board := {| creator := None; Games.limit := None;
                  Games.offset := None; tag := Some "board" |} in
  let party := {| creator := None; Games.limit := None;
                  Games.offset := None; tag := Some "party" |} in
  list_cache_key keygen board meta = list_cache_key keygen party meta
  /\ list_query board <> list_query party
  /\ (exists r, fst (list_ board Samples.tagged_games) = Ok r
                /\ gamesCount r = Some 2%nat)
  /\ (exists r, fst (list_ party Samples.tagged_games) = Ok r
                /\ gamesCount r = Some 1%nat).
Proof.
  cbv zeta. split_and!.
  - apply list_cache_key_tag_blind.
  - discriminate.
  - eexists. split; reflexivity.
  - eexists. split; reflexivity.
Qed.

End CacheKeys.

(* ===================================================================== *)
(** ** remove *)
(* ===================================================================== *)

Section Remove.
Import Adapter Games.

(** The choice of the store behind [findOne]. *)
Variable choose : list doc -> option doc.
Hypothesis choose_ok : chooses choose.

Lemma choose_nil : choose [] = None.
Proof.
  pose proof (choose_ok []) as H. destruct (choose []) as [d|]; [|reflexivity].
  destruct H.
Qed.

Lemma choose_single (d : doc) : choose [d] = Some d.
Proof.
  pose proof (choose_ok [d]) as H. destruct (choose [d]) as [x|].
  - destruct H as [-> | []]. reflexivity.
  - discriminate.
Qed.

Lemma filter_nil_Forall {A} (f : A -> bool) (l : list A) :
  List.filter f l = [] <-> Forall (fun x => f x = false) l.
Proof.
  induction l as [|x l IH]; simpl.
  - split; [constructor | reflexivity].
  - destruct (f x) eqn:Hx.
    + split; [discriminate|]. intros H. inversion H; congruence.
    + rewrite IH. split; [now constructor | now inversion 1].
Qed.

Lemma findOne_None (q : query) (s : store) :
  findOne choose q s = None <-> Forall (fun d => matches q d = false) s.
Proof.
  unfold findOne. rewrite <- filter_nil_Forall. split.
  - intros H. pose proof (choose_ok (List.filter (matches q) s)) as Hc.
    now rewrite H in Hc.
  - intros ->. apply choose_nil.
Qed.

(** The document found is a stored document that matches. *)
Lemma findOne_Some (q : query) (s : store) (e : doc) :
  findOne choose q s = Some e ->
  exists s1 s2, s = s1 ++ e :: s2 /\ matches q e = true.
Proof.
  unfold findOne. intros H.
  pose proof (choose_ok (List.filter (matches q) s)) as Hc.
  rewrite H in Hc. apply filter_In in Hc as [Hin Hm].
  apply in_split in Hin as (s1 & s2 & ->). eauto.
Qed.

(** With a single candidate there is nothing to choose. *)
Lemma findOne_single (q : query) (s : store) (d : doc) :
  List.filter (matches q) s = [d] -> findOne choose q s = Some d.
Proof. unfold findOne. intros ->. apply choose_single. Qed.

(** With unique ids, looking a stored document up by its own id finds that
    very document, and removing by that id takes out exactly it. *)
Lemma by_own_id (s1 s2 : store) (e : doc) :
  wf_store (s1 ++ e :: s2) ->
  findById (id_of e) (s1 ++ e :: s2) = Some e
  /\ remove_first (id_of e) (s1 ++ e :: s2) = s1 ++ s2.
Proof.
  induction s1 as [|x s1 IH]; intros [Hnd Hid].
  - simpl in *. rewrite findById_cons.
    apply Forall_cons in Hid as [He _].
    now rewrite (has_id_own e He).
  - simpl in *. rewrite findById_cons.
    apply NoDup_cons in Hnd as [Hx Hnd].
    apply Forall_cons in Hid as [_ Hid].
    assert (Hne : has_id (id_of e) x = false).
    { apply not_true_is_false. rewrite has_id_spec. intros [_ Heq].
      apply Hx. rewrite Heq, map_app. simpl.
      apply elem_of_app. right. apply elem_of_cons. now left. }
    rewrite Hne. destruct (IH (conj Hnd Hid)) as [-> ->]. auto.
Qed.

Lemma filter_only_one {A} (f : A -> bool) (l1 l2 : list A) (x : A) :
  f x = true ->
  (length (List.filter f (l1 ++ x :: l2)) <= 1)%nat ->
  List.filter f (l1 ++ l2) = [].
Proof.
  intros Hx. rewrite !List.filter_app. simpl. rewrite Hx.
  rewrite length_app. simpl.
  destruct (List.filter f l1), (List.filter f l2); simpl; try lia.
  reflexivity.
Qed.

Lemma filter_another {A} (f : A -> bool) (l1 l2 : list A) (x : A) :
  f x = true ->
  ~ (length (List.filter f (l1 ++ x :: l2)) <= 1)%nat ->
  List.filter f (l1 ++ l2) <> [].
Proof.
  intros Hx. rewrite !List.filter_app. simpl. rewrite Hx.
  rewrite length_app. simpl.
  destruct (List.filter f l1), (List.filter f l2); simpl; try discriminate.
  lia.
Qed.

Lemma slug_unique_rest (slug : string) (s1 s2 : store) (e : doc) :
  matches [("slug", CEq slug)] e = true ->
  slug_unique slug (s1 ++ e :: s2) ->
  findOne choose [("slug", CEq slug)] (s1 ++ s2) = None.
Proof.
  intros He Hu. unfold findOne.
  rewrite (filter_only_one _ s1 s2 e He Hu). apply choose_nil.
Qed.

(** [remove], written out. *)
Lemma remove_eval (slug actor : string) (s : store) :
  remove choose slug actor s
  = match findOne choose [("slug", CEq slug)] s with
    | None => (Err (NotFound "Game not found!"), s)
    | Some e =>
        if bool_decide (e !! "creator" ≠ Some (VStr actor))
        then (Err Forbidden, s)
        else (Ok (match findById (id_of e) s with
                  | Some _ => 1%nat
                  | None => 0%nat
                  end),
              remove_first (id_of e) s)
    end.
Proof.
  unfold remove, bind, findBySlug, adapter_findOne.
  destruct (findOne choose _ s) as [e|]; [|reflexivity].
  now destruct (bool_decide (e !! "creator" ≠ Some (VStr actor))).
Qed.

(** C8, as the code has it.  [remove] answers [NotFound] when no stored
    game has the slug and [Forbidden] when the game the store finds for the
    slug belongs to somebody else, and leaves the store as it was in both
    cases.  For the owner it takes exactly the game found out of the store
    (ids being unique) and returns the count the store answers, 1.  A lookup
    of the slug afterwards finds nothing when no other stored game carried
    the slug, and finds another game carrying it otherwise.  This holds
    whichever of several games with one slug the store finds. *)
Theorem remove_found_game (slug actor : string) (s : store) :
  let q := [("slug", CEq slug)] in
  (Forall (fun d => matches q d = false) s ->
   remove choose slug actor s = (Err (NotFound "Game not found!"), s))
  /\ (forall e,
         findOne choose q s = Some e ->
         e !! "creator" <> Some (VStr actor) ->
         remove choose slug actor s = (Err Forbidden, s))
  /\ (forall e,
         findOne choose q s = Some e ->
         e !! "creator" = Some (VStr actor) ->
         wf_store s ->
         exists s1 s2,
           s = s1 ++ e :: s2
           /\ matches q e = true
           /\ remove choose slug actor s = (Ok 1%nat, s1 ++ s2)
           /\ (slug_unique slug s ->
               findBySlug choose slug (s1 ++ s2) = (Ok None, s1 ++ s2))
           /\ (~ slug_unique slug s ->
               exists e',
                 findBySlug choose slug (s1 ++ s2) = (Ok (Some e'), s1 ++ s2)
                 /\ matches q e' = true
                 /\ In e' (s1 ++ s2))).
Proof.
  intros q. split_and!.
  - intros Hnone. apply findOne_None in Hnone.
    rewrite remove_eval. fold q. now rewrite Hnone.
  - intros e He Hc. rewrite remove_eval. fold q. rewrite He.
    now rewrite bool_decide_eq_true_2.
  - intros e He Hc Hwf.
    destruct (findOne_Some q s e He) as (s1 & s2 & -> & Hm).
    exists s1, s2. destruct (by_own_id s1 s2 e Hwf) as [Hfind Hrm].
    split_and!.
    + reflexivity.
    + exact Hm.
    + rewrite remove_eval. fold q. rewrite He.
      rewrite bool_decide_eq_false_2 by (intros Hn; now apply Hn).
      now rewrite Hfind, Hrm.
    + intros Hu. unfold findBySlug, adapter_findOne.
      now rewrite (slug_unique_rest slug s1 s2 e Hm Hu).
    + intros Hu. unfold findBySlug, adapter_findOne, findOne.
      pose proof (filter_another _ s1 s2 e Hm Hu) as Hne.
      pose proof (choose_ok (List.filter (matches q) (s1 ++ s2))) as Hc'.
      fold q. destruct (choose (List.filter (matches q) (s1 ++ s2))) as [e'|];
        [|contradiction].
      apply filter_In in Hc' as [Hin Hm']. eauto.
Qed.

End Remove.

Section RemoveExamples.
Import Adapter Games.

(** The store that answers with the earliest stored candidate. *)
Lemma head_chooses : chooses head.
Proof. intros [|d l]; simpl; auto. Qed.

Lemma five_games_wf : wf_store Samples.five_games.
Proof.
  split.
  - apply (bool_decide_unpack _). vm_compute. exact I.
  - repeat constructor; eexists; reflexivity.
Qed.

(** C8 as stated fails.  The five games have five slugs; the owner of [g2]
    rewrites its slug to the slug of [g1], which [update] accepts.  [remove]
    of that slug then takes out [g1] ([g1] has both the smaller id and the
    earlier place, so it is the game found) and returns the count 1, not the
    removed record; a lookup of the slug right after finds [g2]. *)
Lemma remove_leaves_shared_slug :
  let patch : doc := {["slug" := VStr "chess-4fzyo8"]} in
  let g2' : doc :=
    <["slug" := VStr "chess-4fzyo8"]> (<["updatedAt" := VDate 900]> Samples.g2) in
  let s1 := [Samples.g1; g2'; Samples.g3; Samples.g4; Samples.g5] in
  let s2 := [g2'; Samples.g3; Samples.g4; Samples.g5] in
  slug_unique "chess-4fzyo8" Samples.five_games
  /\ update "g2" patch "u1" 900 Samples.five_games
     = (Ok (transformResult (JDoc (filterFields g2'))), s1)
  /\ remove head "chess-4fzyo8" "u1" s1 = (Ok 1%nat, s2)
  /\ findBySlug head "chess-4fzyo8" s2 = (Ok (Some g2'), s2).
Proof.
  cbv zeta. split_and!; try reflexivity. apply Nat.leb_le. reflexivity.
Qed.

Lemma remove_found_game_witness :
  exists s' : store,
    remove head "chess-4fzyo8" "u1" Samples.five_games = (Ok 1%nat, s')
    /\ findBySlug head "chess-4fzyo8" s' = (Ok None, s')
    /\ remove head "chess-4fzyo8" "u2" Samples.five_games
       = (Err Forbidden, Samples.five_games)
    /\ remove head "chess-000000" "u1" Samples.five_games
       = (Err (NotFound "Game not found!"), Samples.five_games).
Proof.
  assert (Hg1 : findOne head [("slug", CEq "chess-4fzyo8")] Samples.five_games
                = Some Samples.g1) by reflexivity.
  assert (Hown : Samples.g1 !! "creator" = Some (VStr "u1")) by reflexivity.
  assert (Hother : Samples.g1 !! "creator" <> Some (VStr "u2"))
    by discriminate.
  assert (Huniq : slug_unique "chess-4fzyo8" Samples.five_games)
    by (apply Nat.leb_le; reflexivity).
  assert (Hnone : Forall
                    (fun d : doc =>
                       matches [("slug", CEq "chess-000000")] d = false)
                    Samples.five_games) by (repeat constructor).
  destruct (remove_found_game head head_chooses "chess-4fzyo8" "u1"
              Samples.five_games) as (_ & _ & Hdel).
  destruct (Hdel Samples.g1 Hg1 Hown five_games_wf)
    as (s1 & s2 & _ & _ & Hrm & Hgone & _).
  exists (s1 ++ s2). split_and!.
  - exact Hrm.
  - exact (Hgone Huniq).
  - exact (proj1 (proj2 (remove_found_game head head_chooses "chess-4fzyo8"
                           "u2" Samples.five_games)) Samples.g1 Hg1 Hother).
  - exact (proj1 (remove_found_game head head_chooses "chess-000000" "u1"
                    Samples.five_games) Hnone).
Defined.

End RemoveExamples.

(* ===================================================================== *)
(** ** The store keeps its ids unique *)
(* ===================================================================== *)

Section StoreInvariant.
Import Adapter Games.

Lemma findById_None_fresh (i : option value) (s : store) :
  is_Some i -> findById i s = None -> i ∉ map id_of s.
Proof.
  intros Hi. induction s as [|x s IH]; [intros _; apply not_elem_of_nil|].
  rewrite findById_cons. destruct (has_id i x) eqn:Hx; [discriminate|].
  intros Hn. simpl. rewrite elem_of_cons. intros [Heq | Hin].
  - assert (has_id i x = true) by (apply has_id_spec; auto). congruence.
  - now apply IH.
Qed.

Lemma insert_wf (fresh : string) (d d' : doc) (s s' : store) :
  wf_store s -> insert fresh d s = inr (d', s') -> wf_store s'.
Proof.
  intros [Hnd Hid]. unfold insert.
  set (e := match id_of d with Some _ => d | None => _ end).
  assert (He : is_Some (id_of e)).
  { unfold e. destruct (id_of d) eqn:Hd; [rewrite Hd; eauto|].
    unfold id_of. rewrite lookup_insert_eq. eauto. }
  destruct (findById (id_of e) s) eqn:Hf; [discriminate|].
  intros [= <- <-]. split.
  - rewrite map_app. apply NoDup_app. split; [exact Hnd|]. split.
    + intros i Hi. simpl. rewrite elem_of_cons. intros [-> | Hn].
      * now apply (findById_None_fresh (id_of e) s He Hf).
      * now apply not_elem_of_nil in Hn.
    + apply NoDup_singleton.
  - apply Forall_app. split; [exact Hid | now constructor].
Qed.

Lemma replace_first_ids (i : option value) (d' : doc) (s : store) :
  id_of d' = i -> map id_of (replace_first i d' s) = map id_of s.
Proof.
  intros Hd'. induction s as [|x s IH]; [reflexivity|].
  simpl. destruct (has_id i x) eqn:Hx; simpl.
  - apply has_id_spec in Hx as [_ ->]. now rewrite Hd'.
  - now rewrite IH.
Qed.

Lemma updateById_wf (i : option value) (patch : doc) (s s' : store) r :
  wf_store s -> updateById i patch s = inr (r, s') -> wf_store s'.
Proof.
  intros [Hnd Hid]. unfold updateById.
  destruct (findById i s) as [d|] eqn:Hf; [|now intros [= _ <-]].
  destruct (bool_decide _) eqn:Hb; [|discriminate].
  apply bool_decide_eq_true in Hb. intros [= _ <-].
  apply findById_has_id, has_id_spec in Hf as [Hi Hdi].
  assert (Hd' : id_of (apply_set patch d) = i) by congruence.
  split.
  - now rewrite replace_first_ids.
  - apply Forall_forall. intros x Hx.
    assert (Hin : id_of x ∈ map id_of (replace_first i (apply_set patch d) s))
      by (apply list_elem_of_fmap; eauto).
    rewrite replace_first_ids in Hin by exact Hd'.
    apply list_elem_of_fmap in Hin as (y & -> & Hy).
    rewrite Forall_forall in Hid. now apply Hid.
Qed.

Lemma remove_first_sublist (i : option value) (s : store) :
  sublist (remove_first i s) s.
Proof.
  induction s as [|x s IH]; [constructor|].
  simpl. destruct (has_id i x); [now apply sublist_cons | now apply sublist_skip].
Qed.

Lemma removeById_wf (i : option value) (s : store) :
  wf_store s -> wf_store (snd (removeById i s)).
Proof.
  intros [Hnd Hid]. simpl. pose proof (remove_first_sublist i s) as Hsub.
  split.
  - apply (sublist_NoDup _ (map id_of s) Hnd).
    now apply (fmap_sublist id_of).
  - clear Hnd Hsub. induction Hid as [|x s Hx Hs IH]; [constructor|].
    simpl. destruct (has_id i x); [assumption | now constructor].
Qed.

End StoreInvariant.

(* ===================================================================== *)
(** ** More on the slug suffix *)
(* ===================================================================== *)

Section SuffixRoundTrip.

Lemma digit_value36_digit36 (d : Z) :
  0 <= d < 36 -> digit_value36 (digit36 d) = d.
Proof.
  intros Hd. unfold digit_value36, digit36.
  destruct (Z.ltb_spec d 10).
  - rewrite nat_ascii_embedding by lia. rewrite Z2Nat.id by lia.
    destruct (Z.ltb_spec (48 + d) 58); lia.
  - rewrite nat_ascii_embedding by lia. rewrite Z2Nat.id by lia.
    destruct (Z.ltb_spec (97 + (d - 10)) 58); lia.
Qed.

Lemma value36_snoc (l : list ascii) (c : ascii) :
  value36 (l ++ [c]) = value36 l * 36 + digit_value36 c.
Proof. unfold value36. now rewrite fold_left_app. Qed.

(** Reading the digits of a number gives the number back. *)
Lemma value36_digits36 (fuel : nat) :
  forall n, 0 <= n < 36 ^ Z.of_nat fuel -> value36 (digits36 fuel n) = n.
Proof.
  induction fuel as [|f IH]; intros n Hn.
  - change (36 ^ Z.of_nat 0) with 1 in Hn. simpl.
    unfold value36. simpl. lia.
  - simpl. destruct (Z.ltb_spec n 36).
    + unfold value36. simpl. rewrite digit_value36_digit36; lia.
    + rewrite value36_snoc, IH, digit_value36_digit36.
      * pose proof (Z.div_mod n 36 ltac:(lia)). lia.
      * apply Z.mod_pos_bound. lia.
      * rewrite Nat2Z.inj_succ, Z.pow_succ_r in Hn by lia. split.
        -- apply Z.div_pos; lia.
        -- apply Z.div_lt_upper_bound; lia.
Qed.

Lemma digits36_nonempty (fuel : nat) (n : Z) : digits36 (S fuel) n <> [].
Proof.
  simpl. destruct (n <? 36); [discriminate|].
  intros H. apply app_eq_nil in H as [_ H]. discriminate.
Qed.

Lemma base36_char_not_minus (c : ascii) :
  is_base36_char c = true -> Ascii.eqb c "-" = false.
Proof.
  intros Hc. destruct (Ascii.eqb_spec c "-") as [->|]; [|reflexivity].
  discriminate Hc.
Qed.

Lemma parse_int36_minus (r : string) :
  parse_int36 (String "-" r) = - value36 (list_ascii_of_string r).
Proof. reflexivity. Qed.

(** What [toString(36)] writes for a number is read back as that number. *)
Lemma parse_int36_to_string36 (n : Z) :
  - 36 ^ 13 < n < 36 ^ 13 -> parse_int36 (to_string36 n) = n.
Proof.
  intros Hn. unfold to_string36. destruct (Z.ltb_spec n 0).
  - rewrite parse_int36_minus, list_ascii_of_string_of_list_ascii.
    rewrite (value36_digits36 13) by (change (Z.of_nat 13) with 13; lia). lia.
  - pose proof (digits36_base36 13 n ltac:(lia)) as Hb.
    destruct (digits36 13 n) as [|c l] eqn:Hd;
      [now apply digits36_nonempty in Hd|].
    simpl in Hb. apply andb_true_iff in Hb as [Hc _].
    change (string_of_list_ascii (c :: l))
      with (String c (string_of_list_ascii l)).
    unfold parse_int36. rewrite (base36_char_not_minus c Hc).
    change (String c (string_of_list_ascii l))
      with (string_of_list_ascii (c :: l)).
    rewrite list_ascii_of_string_of_list_ascii, <- Hd.
    apply (value36_digits36 13). change (Z.of_nat 13) with 13. lia.
Qed.

Lemma to_int32_range (x : Z) : - 2 ^ 31 <= to_int32 x < 2 ^ 31.
Proof.
  unfold to_int32.
  pose proof (Z.mod_pos_bound (x + 2 ^ 31) (2 ^ 32) ltac:(lia)). lia.
Qed.

Lemma to_int32_inj (x y : Z) :
  0 <= x < 2 ^ 32 -> 0 <= y < 2 ^ 32 -> to_int32 x = to_int32 y -> x = y.
Proof.
  intros Hx Hy. unfold to_int32. intros H.
  assert (Hm : (x + 2 ^ 31) mod 2 ^ 32 = (y + 2 ^ 31) mod 2 ^ 32) by lia.
  destruct (Z_lt_ge_dec x (2 ^ 31)), (Z_lt_ge_dec y (2 ^ 31)).
  - rewrite !Z.mod_small in Hm by lia. lia.
  - rewrite (Z.mod_small (x + 2 ^ 31)) in Hm by lia.
    replace (y + 2 ^ 31) with ((y - 2 ^ 31) + 1 * 2 ^ 32) in Hm by lia.
    rewrite Z.mod_add, Z.mod_small in Hm by lia. lia.
  - rewrite (Z.mod_small (y + 2 ^ 31)) in Hm by lia.
    replace (x + 2 ^ 31) with ((x - 2 ^ 31) + 1 * 2 ^ 32) in Hm by lia.
    rewrite Z.mod_add, Z.mod_small in Hm by lia. lia.
  - replace (x + 2 ^ 31) with ((x - 2 ^ 31) + 1 * 2 ^ 32) in Hm by lia.
    replace (y + 2 ^ 31) with ((y - 2 ^ 31) + 1 * 2 ^ 32) in Hm by lia.
    rewrite !Z.mod_add, !Z.mod_small in Hm by lia. lia.
Qed.

Variable slug_lower : string -> string.

(** X1. For one name, two draws give the same slug only when they are the
    same draw: over the whole range of line 73 the suffix determines the
    draw. *)
Theorem make_slug_draw_inj (name : string) (r1 r2 : Z) :
  0 <= r1 < 36 ^ 6 -> 0 <= r2 < 36 ^ 6 ->
  Games.make_slug slug_lower name r1 = Games.make_slug slug_lower name r2 ->
  r1 = r2.
Proof.
  intros H1 H2. unfold Games.make_slug. intros H.
  apply String.app_inj in H. injection H as H.
  change (to_string36 (to_int32 r1) = to_string36 (to_int32 r2)) in H.
  apply (f_equal parse_int36) in H.
  pose proof (to_int32_range r1). pose proof (to_int32_range r2).
  rewrite !parse_int36_to_string36 in H by lia.
  apply to_int32_inj; lia.
Qed.

(** X2. A draw of [2 ^ 31] or more (one draw in 74) wraps under [| 0]: the
    suffix is a minus sign followed by exactly six characters of
    [[0-9a-z]], the digits of [2 ^ 32 - draw], and the slug has two hyphens
    in a row. *)
Theorem make_slug_overflow (name : string) (rnd : Z) :
  2 ^ 31 <= rnd < 36 ^ 6 ->
  exists digits : list ascii,
    Games.make_slug slug_lower name rnd
    = (slug_lower name ++ "--" ++ string_of_list_ascii digits)%string
    /\ digits = digits36 13 (2 ^ 32 - rnd)
    /\ length digits = 6%nat
    /\ forallb is_base36_char digits = true.
Proof.
  intros Hr. exists (digits36 13 (2 ^ 32 - rnd)). split_and!.
  - unfold Games.make_slug. rewrite to_int32_wraps by exact Hr.
    unfold to_string36. destruct (Z.ltb_spec (rnd - 2 ^ 32) 0); [|lia].
    replace (- (rnd - 2 ^ 32)) with (2 ^ 32 - rnd) by lia. reflexivity.
  - reflexivity.
  - apply (digits36_length_eq 13 5); [lia|].
    change (Z.of_nat 5) with 5. change (Z.of_nat 6) with 6. lia.
  - apply digits36_base36. lia.
Qed.

End SuffixRoundTrip.

Lemma make_slug_draw_inj_witness :
  Games.make_slug Samples.to_lower "Chess" 1000000
  = Games.make_slug Samples.to_lower "Chess" (500000 + 500000)
  /\ 1000000 = 500000 + 500000.
Proof.
  split; [reflexivity|].
  apply (make_slug_draw_inj Samples.to_lower "Chess" 1000000 (500000 + 500000));
    [lia | lia | reflexivity].
Defined.

Lemma make_slug_overflow_witness :
  exists digits : list ascii,
    Games.make_slug Samples.to_lower "Chess" (2 ^ 31)
    = ("chess" ++ "--" ++ string_of_list_ascii digits)%string
    /\ length digits = 6%nat.
Proof.
  destruct (make_slug_overflow Samples.to_lower "Chess" (2 ^ 31) ltac:(lia))
    as (digits & Hs & _ & Hl & _).
  exists digits. split; [exact Hs | exact Hl].
Defined.

(* ===================================================================== *)
(** ** More on create *)
(* ===================================================================== *)

Section CreateMore.
Import Adapter Games.

Variable slug_lower : string -> string.

Lemma findById_app (i : option value) (s1 s2 : store) :
  findById i (s1 ++ s2)
  = match findById i s1 with
    | Some d => Some d
    | None => findById i s2
    end.
Proof.
  induction s1 as [|x s1 IH]; [reflexivity|].
  simpl. rewrite !findById_cons. now destruct (has_id i x).
Qed.

Lemma slug_query_matches (slug : string) (d : doc) :
  d !! "slug" = Some (VStr slug) -> matches [("slug", CEq slug)] d = true.
Proof.
  intros H. unfold matches, cond_matches, field_matches. simpl.
  now rewrite H, String.eqb_refl.
Qed.

Lemma new_entity_lookup game actor rnd tc tu :
  let e := new_entity slug_lower game actor rnd tc tu in
  e !! "slug" = Some (VStr (make_slug slug_lower (name_of game) rnd))
  /\ e !! "creator" = Some (VStr actor)
  /\ e !! "createdAt" = Some (VDate tc)
  /\ e !! "updatedAt" = Some (VDate tu)
  /\ (forall k, k ∉ create_owned_fields -> e !! k = game !! k).
Proof.
  cbv zeta. unfold new_entity. split_and!.
  - rewrite !lookup_insert_ne by discriminate. apply lookup_insert_eq.
  - rewrite !lookup_insert_ne by discriminate. apply lookup_insert_eq.
  - rewrite lookup_insert_ne by discriminate. apply lookup_insert_eq.
  - apply lookup_insert_eq.
  - intros k Hk. unfold create_owned_fields in Hk.
    rewrite !not_elem_of_cons in Hk. destruct Hk as (H1 & H2 & H3 & H4 & _).
    now rewrite !lookup_insert_ne by congruence.
Qed.

(** Every way for [create] to return. *)
Lemma create_inv game actor rnd tc tu fresh (s s' : store) r :
  create slug_lower game actor rnd tc tu fresh s = (Ok r, s') ->
  valid_entity game = true
  /\ exists d : doc,
      s' = s ++ [d]
      /\ r = transformResult (transformDocument (Some d))
      /\ findById (id_of d) s = None
      /\ id_of d = match game !! "_id" with
                   | Some v => Some v
                   | None => Some (VStr fresh)
                   end
      /\ (forall k, k <> "_id" ->
                    d !! k = new_entity slug_lower game actor rnd tc tu !! k).
Proof.
  unfold create, bind, validateEntity.
  destruct (valid_entity game) eqn:Hv; [|discriminate]. simpl.
  unfold adapter_insert, insert. rewrite new_entity_id.
  set (e := new_entity slug_lower game actor rnd tc tu).
  destruct (game !! "_id") as [v|] eqn:Hid.
  - destruct (findById (id_of e) s) eqn:Hf; [discriminate|].
    intros [= <- <-]. split; [reflexivity|]. exists e. split_and!; auto.
    unfold e. now rewrite new_entity_id.
  - destruct (findById (id_of (<["_id":=VStr fresh]> e)) s) eqn:Hf;
      [discriminate|].
    intros [= <- <-]. split; [reflexivity|].
    exists (<["_id":=VStr fresh]> e). split_and!; auto.
    + unfold id_of. apply lookup_insert_eq.
    + intros k Hk. now rewrite lookup_insert_ne by congruence.
Qed.

Lemma create_invalid game actor rnd tc tu fresh (s : store) :
  valid_entity game = false ->
  create slug_lower game actor rnd tc tu fresh s = (Err ValidationError, s).
Proof.
  intros Hv. unfold create, bind, validateEntity. now rewrite Hv.
Qed.

Lemma string_min1_spec (v : option value) :
  string_min1 v = true <-> exists n, v = Some (VStr n) /\ n <> "".
Proof.
  unfold string_min1. split.
  - destruct v as [[| | |n| |]|]; try discriminate.
    destruct (String.eqb_spec n ""); [discriminate|]. eauto.
  - intros (n & -> & Hn). now destruct (String.eqb_spec n "").
Qed.

(** [create], written out for an entity that passes the validator. *)
Lemma create_valid game actor rnd tc tu fresh (s : store) :
  valid_entity game = true ->
  let e := new_entity slug_lower game actor rnd tc tu in
  let d := match game !! "_id" with
           | Some _ => e
           | None => <["_id" := VStr fresh]> e
           end in
  id_of d = Some (match game !! "_id" with
                  | Some v => v
                  | None => VStr fresh
                  end)
  /\ create slug_lower game actor rnd tc tu fresh s
     = match findById (id_of d) s with
       | Some _ => (Err (StoreError DuplicateKey), s)
       | None => (Ok (transformResult (transformDocument (Some d))), s ++ [d])
       end.
Proof.
  intros Hv e d. split.
  - unfold d. destruct (game !! "_id") as [v|] eqn:Hid.
    + unfold e. now rewrite new_entity_id.
    + unfold id_of. now rewrite lookup_insert_eq.
  - unfold create, bind, validateEntity. rewrite Hv. simpl.
    unfold adapter_insert, insert. rewrite new_entity_id. fold e.
    destruct (game !! "_id") as [v|] eqn:Hid; fold d;
      now destruct (findById (id_of d) s).
Qed.

(** X3. [create] stores a game exactly when the entity has a non-empty
    string as name and as description and the id the game is to get (its
    own [_id], or else the id the store has in hand) is not taken.  An
    entity without such a name or description is answered with a validation
    error; a well-formed entity whose id is taken is refused by the store;
    nothing is stored in either case.  Every other entity is stored under
    that id, at the end of the store. *)
Theorem create_accepts_exactly game actor rnd tc tu fresh (s : store) :
  let well_formed :=
    exists n d, game !! "name" = Some (VStr n) /\ n <> ""
                /\ game !! "description" = Some (VStr d) /\ d <> "" in
  let new_id := match game !! "_id" with
                | Some v => v
                | None => VStr fresh
                end in
  (~ well_formed ->
   create slug_lower game actor rnd tc tu fresh s = (Err ValidationError, s))
  /\ (well_formed ->
      findById (Some new_id) s <> None ->
      create slug_lower game actor rnd tc tu fresh s
      = (Err (StoreError DuplicateKey), s))
  /\ (well_formed ->
      findById (Some new_id) s = None ->
      exists (r : response) (d : doc),
        create slug_lower game actor rnd tc tu fresh s = (Ok r, s ++ [d])
        /\ id_of d = Some new_id
        /\ d !! "name" = game !! "name"
        /\ d !! "description" = game !! "description").
Proof.
  intros well_formed new_id.
  assert (Hwf : valid_entity game = true <-> well_formed).
  { unfold valid_entity, well_formed.
    rewrite andb_true_iff, !string_min1_spec. split.
    - intros [(n & Hn & Hn') (d & Hd & Hd')]. exists n, d. auto.
    - intros (n & d & Hn & Hn' & Hd & Hd'). split; eauto. }
  split_and!.
  - intros Hno. apply create_invalid.
    destruct (valid_entity game); [|reflexivity]. now destruct Hno; apply Hwf.
  - intros Hw Htaken. apply Hwf in Hw.
    destruct (create_valid game actor rnd tc tu fresh s Hw) as [Hid ->].
    rewrite Hid. fold new_id.
    destruct (findById (Some new_id) s); [reflexivity | contradiction].
  - intros Hw Hfree. apply Hwf in Hw.
    destruct (create_valid game actor rnd tc tu fresh s Hw) as [Hid Hc].
    rewrite Hid in Hc. fold new_id in Hc, Hid. rewrite Hfree in Hc.
    eexists _, _. split; [exact Hc|]. split; [exact Hid|].
    destruct (new_entity_lookup game actor rnd tc tu) as (_ & _ & _ & _ & Hk).
    assert (Hname : "name" ∉ create_owned_fields)
      by (apply (bool_decide_unpack _); vm_compute; exact I).
    assert (Hdesc : "description" ∉ create_owned_fields)
      by (apply (bool_decide_unpack _); vm_compute; exact I).
    destruct (game !! "_id");
      rewrite ?lookup_insert_ne by discriminate; now rewrite !Hk.
Qed.

(** X4. A game stored by [create] carries the actor as creator, the two
    clock readings and the slug of line 73, whatever the request body said
    about these four fields; every other field of the body, declared or not,
    is stored as sent; and the new game is appended, the games stored before
    staying as they were. *)
Theorem create_stored_fields game actor rnd tc tu fresh (s s' : store) r :
  create slug_lower game actor rnd tc tu fresh s = (Ok r, s') ->
  exists d : doc,
    s' = s ++ [d]
    /\ d !! "creator" = Some (VStr actor)
    /\ d !! "createdAt" = Some (VDate tc)
    /\ d !! "updatedAt" = Some (VDate tu)
    /\ d !! "slug" = Some (VStr (make_slug slug_lower (name_of game) rnd))
    /\ (forall k, k ∉ create_owned_fields -> k <> "_id" -> d !! k = game !! k)
    /\ (game !! "_id" = None -> d !! "_id" = Some (VStr fresh)).
Proof.
  intros Hc. apply create_inv in Hc as (_ & d & -> & _ & _ & Hid & Hd).
  destruct (new_entity_lookup game actor rnd tc tu) as (H1 & H2 & H3 & H4 & H5).
  exists d. split_and!.
  - reflexivity.
  - now rewrite Hd by discriminate.
  - now rewrite Hd by discriminate.
  - now rewrite Hd by discriminate.
  - now rewrite Hd by discriminate.
  - intros k Hk Hk'. rewrite Hd by exact Hk'. now apply H5.
  - intros Hg. unfold id_of in Hid. now rewrite Hg in Hid.
Qed.

Section ThenRemove.

(** The choice of the store behind [findOne]. *)
Variable choose : list doc -> option doc.
Hypothesis choose_ok : chooses choose.

(** X5. Creating a game and then removing it by its slug, as the same
    actor, gives back the store from before the creation, provided no game
    stored before carries the new slug; in between, a lookup of the slug
    finds the new game. *)
Theorem create_then_remove game actor rnd tc tu fresh (s s' : store) r :
  let slug := make_slug slug_lower (name_of game) rnd in
  wf_store s ->
  Forall (fun x => matches [("slug", CEq slug)] x = false) s ->
  create slug_lower game actor rnd tc tu fresh s = (Ok r, s') ->
  exists d : doc,
    s' = s ++ [d]
    /\ findBySlug choose slug s' = (Ok (Some d), s')
    /\ remove choose slug actor s' = (Ok 1%nat, s).
Proof.
  intros slug [Hnd Hids] Hnone Hc.
  pose proof Hc as Hf.
  apply create_stored_fields in Hf as (d & -> & Hcr & _ & _ & Hslug & _).
  apply create_inv in Hc as (_ & d' & Heq & _ & Hfree & Hid & _).
  apply app_inj_tail in Heq as [_ <-].
  assert (Hsome : is_Some (id_of d))
    by (rewrite Hid; destruct (game !! "_id"); eauto).
  assert (Hone : findOne choose [("slug", CEq slug)] (s ++ [d]) = Some d).
  { apply (findOne_single choose choose_ok).
    rewrite List.filter_app. apply filter_nil_Forall in Hnone. rewrite Hnone.
    cbn [List.filter app]. now rewrite (slug_query_matches slug d Hslug). }
  assert (Hwf : wf_store (s ++ [d])).
  { split.
    - rewrite map_app. apply NoDup_app. split_and!; [exact Hnd | | ].
      + intros i Hi. simpl. rewrite elem_of_cons. intros [-> | Hn].
        * now apply (findById_None_fresh (id_of d) s Hsome Hfree).
        * now apply not_elem_of_nil in Hn.
      + apply NoDup_singleton.
    - apply Forall_app. split; [exact Hids | now constructor]. }
  destruct (by_own_id s [] d Hwf) as [Hfind Hrm].
  rewrite app_nil_r in Hrm.
  exists d. split_and!.
  - reflexivity.
  - unfold findBySlug, adapter_findOne. now rewrite Hone.
  - rewrite remove_eval, Hone.
    rewrite bool_decide_eq_false_2 by (intros Hn; now apply Hn).
    now rewrite Hfind, Hrm.
Qed.

End ThenRemove.

Lemma filter_two {A} (f : A -> bool) (l : list A) (a b : A) :
  f a = true -> f b = true ->
  (2 <= length (List.filter f (l ++ [a; b])))%nat.
Proof.
  intros Ha Hb. rewrite List.filter_app, length_app. simpl.
  rewrite Ha, Hb. simpl. lia.
Qed.

(** X6. Nothing in [create] looks for the slug in the store: two creations
    with names that slugify alike and with the same draw both succeed and
    store two games, under different ids, with one and the same slug. *)
Theorem create_same_draw_collides game1 game2 actor1 actor2 rnd
    tc1 tu1 tc2 tu2 fresh1 fresh2 (s s1 s2 : store) r1 r2 :
  slug_lower (name_of game1) = slug_lower (name_of game2) ->
  create slug_lower game1 actor1 rnd tc1 tu1 fresh1 s = (Ok r1, s1) ->
  create slug_lower game2 actor2 rnd tc2 tu2 fresh2 s1 = (Ok r2, s2) ->
  exists (d1 d2 : doc) (slug : string),
    s2 = s ++ [d1; d2]
    /\ d1 !! "slug" = Some (VStr slug)
    /\ d2 !! "slug" = Some (VStr slug)
    /\ id_of d1 <> id_of d2
    /\ ~ slug_unique slug s2.
Proof.
  intros Hname Hc1 Hc2.
  pose proof Hc1 as Hf1. pose proof Hc2 as Hf2.
  apply create_stored_fields in Hf1 as (d1 & -> & _ & _ & _ & Hs1 & _).
  apply create_stored_fields in Hf2 as (d2 & -> & _ & _ & _ & Hs2 & _).
  apply create_inv in Hc2 as (_ & d' & Heq & _ & Hfree & Hid & _).
  apply app_inj_tail in Heq as [_ <-].
  exists d1, d2, (make_slug slug_lower (name_of game1) rnd). split_and!.
  - now rewrite <- app_assoc.
  - exact Hs1.
  - rewrite Hs2. unfold make_slug. now rewrite Hname.
  - intros Heq.
    assert (Hsome : is_Some (id_of d2))
      by (rewrite Hid; destruct (game2 !! "_id"); eauto).
    apply (findById_None_fresh (id_of d2) (s ++ [d1]) Hsome Hfree).
    rewrite map_app. apply elem_of_app. right. simpl. rewrite Heq.
    apply elem_of_cons. now left.
  - unfold slug_unique. rewrite <- app_assoc.
    assert (Hm1 := slug_query_matches _ d1 Hs1).
    assert (Hm2 : matches
                    [("slug", CEq (make_slug slug_lower (name_of game1) rnd))]
                    d2 = true).
    { apply slug_query_matches. rewrite Hs2. unfold make_slug.
      now rewrite Hname. }
    pose proof (filter_two _ s d1 d2 Hm1 Hm2) as H2. simpl in H2 |- *. lia.
Qed.

(** X7. After [create] (for a body without an id of its own) the game is
    found under the id the store gave it; an [update] of it by any other
    actor is answered with [Forbidden] and changes nothing, and an [update]
    by the creator with a patch that passes the schema and leaves [_id]
    alone succeeds. *)
Theorem create_then_update game actor rnd tc tu fresh (s s' : store) r :
  game !! "_id" = None ->
  create slug_lower game actor rnd tc tu fresh s = (Ok r, s') ->
  (exists d, findById (Some (VStr fresh)) s' = Some d
             /\ d !! "creator" = Some (VStr actor))
  /\ (forall other patch now,
         other <> actor -> valid_patch patch = true ->
         update fresh patch other now s' = (Err Forbidden, s'))
  /\ (forall patch now,
         valid_patch patch = true -> patch !! "_id" = None ->
         exists r2 s2, update fresh patch actor now s' = (Ok r2, s2)).
Proof.
  intros Hg Hc. pose proof Hc as Hf.
  apply create_stored_fields in Hf as (d & -> & Hcr & _ & _ & _ & _ & Hid).
  apply create_inv in Hc as (_ & d' & Heq & _ & Hfree & Hid' & _).
  apply app_inj_tail in Heq as [_ <-].
  rewrite Hg in Hid'. rewrite Hid' in Hfree.
  assert (Hfind : findById (Some (VStr fresh)) (s ++ [d]) = Some d).
  { rewrite findById_app, Hfree, findById_cons.
    now replace (has_id (Some (VStr fresh)) d) with true
      by (symmetry; apply has_id_spec; eauto). }
  split_and!.
  - eauto.
  - intros other patch now Hne Hv. rewrite update_valid by exact Hv.
    apply update_handler_forbidden with (g := d); [exact Hfind|].
    rewrite Hcr. congruence.
  - intros patch now Hv Hp. rewrite update_valid by exact Hv.
    pose proof (update_handler_owner fresh patch actor now _ d Hfind Hcr) as Hu.
    cbv zeta in Hu. rewrite bool_decide_eq_true_2 in Hu.
    + eauto.
    + unfold id_of. apply apply_set_lookup_frame, stamp_lookup_None.
      split; [discriminate | exact Hp].
Qed.

End CreateMore.

Section CreateMoreExamples.
Import Adapter Games.

(** The body of a request that tries to set the creator itself. *)
Lemma forged_body_created :
  let body : doc := <["creator" := VStr "root"]> Samples.chess in
  let d : doc :=
    <["_id" := VStr "g9"]> (new_entity Samples.to_lower body "A" 1000000 10 11) in
  create Samples.to_lower body "A" 1000000 10 11 "g9" Samples.five_games
  = (Ok (transformResult (transformDocument (Some d))),
     Samples.five_games ++ [d]).
Proof.
  cbv zeta. apply create_ok; reflexivity.
Qed.

Lemma create_stored_fields_witness :
  exists d : doc,
    snd (create Samples.to_lower (<["creator" := VStr "root"]> Samples.chess)
           "A" 1000000 10 11 "g9" Samples.five_games)
    = Samples.five_games ++ [d]
    /\ d !! "creator" = Some (VStr "A")
    /\ d !! "name" = Some (VStr "Chess").
Proof.
  pose proof forged_body_created as Hc. cbv zeta in Hc.
  destruct (create_stored_fields _ _ _ _ _ _ _ _ _ _ Hc)
    as (d & Hs & Hcr & _ & _ & _ & Hk & _).
  assert (Hname : "name" ∉ create_owned_fields)
    by (apply (bool_decide_unpack _); vm_compute; exact I).
  exists d. split_and!.
  - rewrite Hc. exact Hs.
  - exact Hcr.
  - rewrite (Hk "name" Hname); [reflexivity | discriminate].
Defined.

Lemma create_then_remove_witness :
  remove head "chess-lfls" "A"
    (snd (create Samples.to_lower (<["creator" := VStr "root"]> Samples.chess)
            "A" 1000000 10 11 "g9" Samples.five_games))
  = (Ok 1%nat, Samples.five_games).
Proof.
  pose proof forged_body_created as Hc. cbv zeta in Hc.
  set (body := <["creator" := VStr "root"]> Samples.chess : doc) in *.
  assert (Hnone : Forall
                    (fun x : doc =>
                       matches
                         [("slug",
                           CEq (make_slug Samples.to_lower (name_of body)
                                  1000000))] x = false)
                    Samples.five_games)
    by (repeat constructor).
  destruct (create_then_remove Samples.to_lower head head_chooses body "A"
              1000000 10 11 "g9" Samples.five_games _ _ five_games_wf Hnone Hc)
    as (d & _ & _ & Hrm).
  rewrite Hc. exact Hrm.
Defined.

Lemma create_same_draw_collides_witness :
  exists (d1 d2 : doc),
    snd (create Samples.to_lower Samples.chess "B" 1000000 20 21 "g9"
           (snd (create Samples.to_lower Samples.chess "A" 1000000 10 11 "g8"
                   Samples.five_games)))
    = Samples.five_games ++ [d1; d2]
    /\ d1 !! "slug" = d2 !! "slug".
Proof.
  set (e1 := <["_id" := VStr "g8"]>
               (new_entity Samples.to_lower Samples.chess "A" 1000000 10 11)).
  set (e2 := <["_id" := VStr "g9"]>
               (new_entity Samples.to_lower Samples.chess "B" 1000000 20 21)).
  assert (Hc1 : create Samples.to_lower Samples.chess "A" 1000000 10 11 "g8"
                  Samples.five_games
                = (Ok (transformResult (transformDocument (Some e1))),
                   Samples.five_games ++ [e1]))
    by (apply create_ok; reflexivity).
  assert (Hc2 : create Samples.to_lower Samples.chess "B" 1000000 20 21 "g9"
                  (Samples.five_games ++ [e1])
                = (Ok (transformResult (transformDocument (Some e2))),
                   (Samples.five_games ++ [e1]) ++ [e2]))
    by (apply create_ok; reflexivity).
  destruct (create_same_draw_collides Samples.to_lower _ _ _ _ _ _ _ _ _ _ _
              _ _ _ _ _ eq_refl Hc1 Hc2)
    as (d1 & d2 & slug & Hs & H1 & H2 & _).
  exists d1, d2. split.
  - rewrite Hc1. cbn [snd]. rewrite Hc2. exact Hs.
  - now rewrite H1, H2.
Defined.

Lemma create_then_update_witness :
  update "g9" {["name" := VStr "X"]} "B" 900
    (snd (create Samples.to_lower (<["creator" := VStr "root"]> Samples.chess)
            "A" 1000000 10 11 "g9" Samples.five_games))
  = (Err Forbidden,
     snd (create Samples.to_lower (<["creator" := VStr "root"]> Samples.chess)
            "A" 1000000 10 11 "g9" Samples.five_games)).
Proof.
  pose proof forged_body_created as Hc. cbv zeta in Hc.
  assert (Hid : (<["creator" := VStr "root"]> Samples.chess : doc) !! "_id"
                = None) by reflexivity.
  destruct (create_then_update Samples.to_lower _ _ _ _ _ _ _ _ _ Hid Hc)
    as (_ & Hforb & _).
  rewrite Hc. apply Hforb; [discriminate | reflexivity].
Defined.

End CreateMoreExamples.

(* ===================================================================== *)
(** ** More on update and remove *)
(* ===================================================================== *)

Section UpdateMore.
Import Adapter Games.

Lemma update_handler_found id patch actor now (s s' : store) r :
  update_handler id patch actor now s = (Ok r, s') ->
  exists g, findById (Some (VStr id)) s = Some g.
Proof.
  destruct (findById (Some (VStr id)) s) as [g|] eqn:Hf; [eauto|].
  now rewrite update_handler_not_found.
Qed.

(** X9. [update] checks in this order: a patch that does not pass the
    parameter schema is answered with a validation error, whether or not the
    game exists and whoever asks; with a well-formed patch an unknown id is
    answered with the 404 error ["Game not found"], whoever asks.  Neither
    call changes the store. *)
Theorem update_rejections id patch actor now (s : store) :
  (valid_patch patch = false ->
   update id patch actor now s = (Err ValidationError, s))
  /\ (valid_patch patch = true ->
      findById (Some (VStr id)) s = None ->
      update id patch actor now s = (Err (NotFound "Game not found"), s)).
Proof.
  split.
  - apply update_invalid.
  - intros Hv Hf. rewrite update_valid by exact Hv.
    now apply update_handler_not_found.
Qed.

(** X10. [update] succeeds only for the creator of the game and only with a
    patch that passed the schema; the stored [updatedAt] is then the clock
    reading of line 111, also when the patch brought an [updatedAt] of its
    own. *)
Theorem update_success_facts id patch actor now (s s' : store) r :
  update id patch actor now s = (Ok r, s') ->
  valid_patch patch = true
  /\ exists g g' : doc,
      findById (Some (VStr id)) s = Some g
      /\ g !! "creator" = Some (VStr actor)
      /\ findById (Some (VStr id)) s' = Some g'
      /\ g' !! "updatedAt" = Some (VDate now).
Proof.
  intros Hu. split.
  - destruct (valid_patch patch) eqn:Hv; [reflexivity|].
    now rewrite update_invalid in Hu.
  - apply update_ok_inv in Hu.
    destruct (update_handler_found _ _ _ _ _ _ _ Hu) as [g Hf].
    destruct (update_handler_ok_inv _ _ _ _ _ _ _ _ Hf Hu)
      as (Hc & _ & _ & Hs').
    exists g, (apply_set (stamp patch now) g). split_and!; try assumption.
    apply apply_set_lookup_patch. unfold stamp. apply lookup_insert_eq.
Qed.

(** X11. A patch with a [creator] field hands the game over: after the
    successful call every actor other than the one named in the patch,
    the former creator included, is answered with [Forbidden], and the
    actor named in the patch can update the game. *)
Theorem update_hands_over id patch actor now (s s' : store) r (v : value) :
  update id patch actor now s = (Ok r, s') ->
  patch !! "creator" = Some v ->
  (forall a patch2 now2,
      VStr a <> v -> valid_patch patch2 = true ->
      update id patch2 a now2 s' = (Err Forbidden, s'))
  /\ (forall a patch2 now2,
         VStr a = v -> valid_patch patch2 = true -> patch2 !! "_id" = None ->
         exists r2 s2, update id patch2 a now2 s' = (Ok r2, s2)).
Proof.
  intros Hu Hp. apply update_ok_inv in Hu.
  destruct (update_handler_found _ _ _ _ _ _ _ Hu) as [g Hf].
  destruct (update_handler_ok_inv _ _ _ _ _ _ _ _ Hf Hu) as (_ & _ & _ & Hs').
  set (g' := apply_set (stamp patch now) g) in *.
  assert (Hc : g' !! "creator" = Some v).
  { apply apply_set_lookup_patch. now rewrite stamp_lookup_ne. }
  split.
  - intros a patch2 now2 Ha Hv. rewrite update_valid by exact Hv.
    apply update_handler_forbidden with (g := g'); [exact Hs'|].
    rewrite Hc. congruence.
  - intros a patch2 now2 Ha Hv Hid. rewrite update_valid by exact Hv.
    assert (Hc' : g' !! "creator" = Some (VStr a)) by (now rewrite Hc, Ha).
    pose proof (update_handler_owner id patch2 a now2 s' g' Hs' Hc') as Hu2.
    cbv zeta in Hu2. rewrite bool_decide_eq_true_2 in Hu2.
    + eauto.
    + unfold id_of. apply apply_set_lookup_frame, stamp_lookup_None.
      split; [discriminate | exact Hid].
Qed.

End UpdateMore.

Section RemoveMore.
Import Adapter Games.

(** The choice of the store behind [findOne]. *)
Variable choose : list doc -> option doc.
Hypothesis choose_ok : chooses choose.

(** X12. [remove] succeeds only for the creator of the game the store finds
    for the slug: with unique ids, the game taken out carries the slug and
    belongs to the actor, it is the one game missing from the store
    afterwards, and every game with another id is found as before.  This
    holds whichever of several games with one slug the store finds. *)
Theorem remove_success_facts slug actor (s s' : store) (res : nat) :
  wf_store s ->
  remove choose slug actor s = (Ok res, s') ->
  exists (e : doc) (s1 s2 : store),
    findOne choose [("slug", CEq slug)] s = Some e
    /\ s = s1 ++ e :: s2
    /\ s' = s1 ++ s2
    /\ e !! "creator" = Some (VStr actor)
    /\ matches [("slug", CEq slug)] e = true
    /\ length s = S (length s')
    /\ (forall j, Some j <> id_of e ->
                  findById (Some j) s' = findById (Some j) s).
Proof.
  intros Hwf. rewrite remove_eval.
  destruct (findOne choose [("slug", CEq slug)] s) as [e|] eqn:He;
    [|discriminate].
  destruct (bool_decide (e !! "creator" ≠ Some (VStr actor))) eqn:Hb;
    [discriminate|].
  apply bool_decide_eq_false in Hb.
  assert (Hc : e !! "creator" = Some (VStr actor))
    by (destruct (decide (e !! "creator" = Some (VStr actor))); tauto).
  destruct (findOne_Some choose choose_ok _ s e He) as (s1 & s2 & -> & Hm).
  destruct (by_own_id s1 s2 e Hwf) as [Hfind Hrm].
  rewrite Hfind, Hrm. intros [= _ <-].
  exists e, s1, s2. split_and!; auto.
  - rewrite !length_app. simpl. lia.
  - intros j Hj. rewrite !findById_app, findById_cons.
    replace (has_id (Some j) e) with false; [reflexivity|].
    symmetry. apply not_true_is_false. rewrite has_id_spec.
    intros [_ Heq]. congruence.
Qed.

(** X13. Removing twice: when the slug belongs to one stored game only, a
    second [remove] of the same slug right after a successful one is
    answered with the 404 error ["Game not found!"]. *)
Theorem remove_twice slug actor (s s' : store) (res : nat) :
  wf_store s ->
  slug_unique slug s ->
  remove choose slug actor s = (Ok res, s') ->
  forall other,
    remove choose slug other s' = (Err (NotFound "Game not found!"), s').
Proof.
  intros Hwf Hu. rewrite remove_eval.
  destruct (findOne choose [("slug", CEq slug)] s) as [e|] eqn:He;
    [|discriminate].
  destruct (bool_decide (e !! "creator" ≠ Some (VStr actor)));
    [discriminate|].
  destruct (findOne_Some choose choose_ok _ s e He) as (s1 & s2 & -> & Hm).
  destruct (by_own_id s1 s2 e Hwf) as [_ Hrm]. rewrite Hrm.
  intros [= _ <-] other. rewrite remove_eval.
  now rewrite (slug_unique_rest choose choose_ok slug s1 s2 e Hm Hu).
Qed.

End RemoveMore.

Section UpdateRemoveExamples.
Import Adapter Games.

Lemma handover_done :
  let patch : doc := {["creator" := VStr "u2"]} in
  let g1' : doc :=
    <["creator" := VStr "u2"]> (<["updatedAt" := VDate 900]> Samples.g1) in
  update "g1" patch "u1" 900 Samples.five_games
  = (Ok (transformResult (JDoc (filterFields g1'))),
     [g1'; Samples.g2; Samples.g3; Samples.g4; Samples.g5]).
Proof. reflexivity. Qed.

Lemma update_success_facts_witness :
  exists g' : doc,
    findById (Some (VStr "g1"))
      (snd (update "g1" {["creator" := VStr "u2"]} "u1" 900 Samples.five_games))
    = Some g'
    /\ g' !! "updatedAt" = Some (VDate 900).
Proof.
  pose proof handover_done as Hu. cbv zeta in Hu.
  destruct (update_success_facts _ _ _ _ _ _ _ Hu)
    as (_ & g & g' & _ & _ & Hs' & Hat).
  exists g'. rewrite Hu. split; [exact Hs' | exact Hat].
Defined.

Lemma update_hands_over_witness :
  update "g1" {["name" := VStr "Mine again"]} "u1" 901
    (snd (update "g1" {["creator" := VStr "u2"]} "u1" 900 Samples.five_games))
  = (Err Forbidden,
     snd (update "g1" {["creator" := VStr "u2"]} "u1" 900 Samples.five_games)).
Proof.
  pose proof handover_done as Hu. cbv zeta in Hu.
  assert (Hp : ({["creator" := VStr "u2"]} : doc) !! "creator"
               = Some (VStr "u2")) by reflexivity.
  destruct (update_hands_over _ _ _ _ _ _ _ _ Hu Hp) as [Hforb _].
  rewrite Hu. apply Hforb; [discriminate | reflexivity].
Defined.

Lemma removed_g3 :
  remove head "shogi-00abcd" "u2" Samples.five_games
  = (Ok 1%nat, [Samples.g1; Samples.g2; Samples.g4; Samples.g5]).
Proof. reflexivity. Qed.

Lemma remove_success_facts_witness :
  exists (e : doc) (s1 s2 : store),
    Samples.five_games = s1 ++ e :: s2
    /\ [Samples.g1; Samples.g2; Samples.g4; Samples.g5] = s1 ++ s2
    /\ e !! "creator" = Some (VStr "u2").
Proof.
  destruct (remove_success_facts head head_chooses _ _ _ _ _ five_games_wf
              removed_g3)
    as (e & s1 & s2 & _ & Hs & Hs' & Hc & _).
  exists e, s1, s2. split_and!; assumption.
Defined.

Lemma remove_twice_witness :
  remove head "shogi-00abcd" "u2"
    [Samples.g1; Samples.g2; Samples.g4; Samples.g5]
  = (Err (NotFound "Game not found!"),
     [Samples.g1; Samples.g2; Samples.g4; Samples.g5]).
Proof.
  assert (Hu : slug_unique "shogi-00abcd" Samples.five_games)
    by (apply Nat.leb_le; reflexivity).
  exact (remove_twice head head_chooses _ _ _ _ _ five_games_wf Hu
           removed_g3 "u2").
Defined.

End UpdateRemoveExamples.

(* ===================================================================== *)
(** ** More on list and listByUser *)
(* ===================================================================== *)

Section ListMore.
Import Adapter Games.

Lemma apply_limit_length (o : option Z) (l : list doc) :
  (length (apply_limit o l) <= length l)%nat.
Proof.
  unfold apply_limit. destruct o as [n|]; [|lia].
  destruct (0 <? n); [rewrite length_take|]; lia.
Qed.

Lemma apply_offset_length (o : option Z) (l : list doc) :
  (length (apply_offset o l) <= length l)%nat.
Proof.
  unfold apply_offset. destruct o as [n|]; [|lia].
  destruct (0 <? n); [rewrite length_drop|]; lia.
Qed.

Lemma apply_limit_bound (n : Z) (l : list doc) :
  0 < n -> (length (apply_limit (Some n) l) <= Z.to_nat n)%nat.
Proof.
  intros Hn. unfold apply_limit.
  replace (0 <? n) with true by (symmetry; now apply Z.ltb_lt).
  rewrite length_take. lia.
Qed.

(** Whatever the parameters, the count taken after [remove_pagination] is
    the number of documents matching the query. *)
Lemma count_remove_pagination (p : find_params) (s : store) :
  count (remove_pagination p) s
  = length (List.filter (matches (query_of p)) s).
Proof.
  unfold count. rewrite find_length. simpl.
  destruct (Adapter.limit p) as [l|]; simpl;
    [destruct (Z.eqb_spec l 0) as [->|]; simpl|];
    (destruct (Adapter.offset p) as [o|]; simpl;
     [destruct (Z.eqb_spec o 0) as [->|]; simpl|]); reflexivity.
Qed.

Lemma find_incl (p : find_params) (s : store) (d : doc) :
  In d (find p s) -> In d s /\ matches (query_of p) d = true.
Proof.
  unfold find. intros H.
  assert (H1 : In d (apply_offset (Adapter.offset p)
                       (sort_docs (sort p)
                          (List.filter (matches (query_of p)) s)))).
  { revert H. unfold apply_limit. destruct (Adapter.limit p) as [n|]; auto.
    destruct (0 <? n); auto. rewrite <- !list_elem_of_In.
    apply subseteq_take. }
  assert (H2 : In d (sort_docs (sort p)
                       (List.filter (matches (query_of p)) s))).
  { revert H1. unfold apply_offset. destruct (Adapter.offset p) as [n|]; auto.
    destruct (0 <? n); auto. rewrite <- !list_elem_of_In.
    apply subseteq_drop. }
  apply list_elem_of_In in H2. rewrite sort_docs_perm in H2.
  apply list_elem_of_In in H2. now apply filter_In in H2.
Qed.

Lemma field_matches_has_tag (d : doc) (t : string) :
  field_matches (d !! "tagList") t = true -> has_tag t d.
Proof.
  unfold field_matches, has_tag.
  destruct (d !! "tagList") as [[| | |x| |l]|]; try discriminate.
  - intros H. apply String.eqb_eq in H. subst. now left.
  - intros H. apply existsb_exists in H as (x & Hx & Heq).
    apply String.eqb_eq in Heq. subst. right. eauto.
Qed.

(** The answer of [list] depends on the limit, the offset and the tag
    only: the [creator] parameter, which the schema declares and the cache
    key contains, is never read, and an empty tag filters nothing. *)
Theorem list_reads_limit_offset_tag (c1 c2 : option string) (l o : option Z)
    (t : option string) (s : store) :
  list_ {| creator := c1; Games.limit := l; Games.offset := o; tag := t |} s
  = list_ {| creator := c2; Games.limit := l; Games.offset := o; tag := t |} s
  /\ list_ {| creator := c1; Games.limit := l; Games.offset := o;
              tag := Some "" |} s
     = list_ {| creator := c1; Games.limit := l; Games.offset := o;
                tag := None |} s.
Proof. split; reflexivity. Qed.

(** X14. In [list] and in [listByUser] the page never has more games than
    the count says; it has at most [limit] games for a limit above 0, and at
    most 20 when no limit (or the limit 0) was sent. *)
Theorem page_bounds (p : list_params) (s : store) :
  (exists (rows : list doc) (n : nat),
      list_ p s
      = (Ok {| games := Some (map JDoc rows); game := None;
               gamesCount := Some n; commentsCount := None |}, s)
      /\ (length rows <= n)%nat
      /\ (forall L, number_or (Games.limit p) 20 = L -> 0 < L ->
                    (length rows <= Z.to_nat L)%nat)
      /\ (Games.limit p = None \/ Games.limit p = Some 0 ->
          (length rows <= 20)%nat))
  /\ (forall c, creator p = Some c ->
      exists (rows : list doc) (n : nat),
        listByUser p s
        = (Ok {| games := Some (map JDoc rows); game := None;
                 gamesCount := None; commentsCount := Some n |}, s)
        /\ (length rows <= n)%nat
        /\ (forall L, number_or (Games.limit p) 20 = L -> 0 < L ->
                      (length rows <= Z.to_nat L)%nat)
        /\ (Games.limit p = None \/ Games.limit p = Some 0 ->
            (length rows <= 20)%nat)).
Proof.
  assert (Hgen : forall q : find_params,
             Adapter.limit q = Some (number_or (Games.limit p) 20) ->
             (length (transformDocuments (find q s))
              <= count (remove_pagination q) s)%nat
             /\ (forall L, number_or (Games.limit p) 20 = L -> 0 < L ->
                   (length (transformDocuments (find q s)) <= Z.to_nat L)%nat)
             /\ (Games.limit p = None \/ Games.limit p = Some 0 ->
                 (length (transformDocuments (find q s)) <= 20)%nat)).
  { intros q Hq. unfold transformDocuments. rewrite length_map.
    assert (Hb : forall L, number_or (Games.limit p) 20 = L -> 0 < L ->
                   (length (find q s) <= Z.to_nat L)%nat).
    { intros L HL Hpos. unfold find. rewrite Hq, HL.
      now apply apply_limit_bound. }
    split_and!.
    - rewrite count_remove_pagination, find_length.
      etransitivity; [apply apply_limit_length | apply apply_offset_length].
    - exact Hb.
    - intros Hl. apply (Hb 20); [|lia]. now destruct Hl as [-> | ->]. }
  split.
  - exists (transformDocuments (find (list_find_params p) s)),
           (count (remove_pagination (list_find_params p)) s).
    split; [apply list_eval|]. now apply Hgen.
  - intros c Hc.
    exists (transformDocuments (find (listByUser_find_params c p) s)),
           (count (remove_pagination (listByUser_find_params c p)) s).
    split; [exact (listByUser_eval p c s Hc)|]. now apply Hgen.
Qed.

(** X15. [list] invents nothing: every game of the page is a stored game
    that matches the query, cut down to the fields of [settings.fields];
    when a non-empty tag was sent, that stored game carries the tag. *)
Theorem list_rows_are_stored (p : list_params) (s : store) :
  exists rows : list doc,
    fst (list_ p s)
    = Ok {| games := Some (map JDoc rows); game := None;
            gamesCount := Some (count (remove_pagination (list_find_params p)) s);
            commentsCount := None |}
    /\ forall row, In row rows ->
         exists d, In d s
                   /\ row = filterFields d
                   /\ matches (list_query p) d = true
                   /\ (forall t, tag p = Some t -> t <> "" -> has_tag t d).
Proof.
  exists (transformDocuments (find (list_find_params p) s)). split.
  - now rewrite list_eval.
  - intros row Hrow. unfold transformDocuments in Hrow.
    apply in_map_iff in Hrow as (d & <- & Hd).
    apply find_incl in Hd as [Hin Hm]. exists d. split_and!; auto.
    intros t Ht Hne. simpl in Hm. unfold list_query in Hm. rewrite Ht in Hm.
    simpl in Hm. destruct (String.eqb_spec t ""); [contradiction|].
    simpl in Hm. rewrite !andb_true_r, orb_false_r in Hm.
    now apply field_matches_has_tag.
Qed.

End ListMore.

Section SortOrder.
Import Adapter Games.

Lemma strings_compare_antisym (l1 l2 : list string) :
  strings_compare l1 l2 = CompOpp (strings_compare l2 l1).
Proof.
  revert l2. induction l1 as [|a l1 IH]; intros [|b l2]; try reflexivity.
  simpl. rewrite (String.compare_antisym a b).
  destruct (String.compare b a); simpl; [apply IH | reflexivity | reflexivity].
Qed.

Lemma value_compare_antisym (a b : option value) :
  value_compare a b = CompOpp (value_compare b a).
Proof.
  destruct a as [[|x|x|x|x|x]|], b as [[|y|y|y|y|y]|]; try reflexivity; simpl.
  - now destruct x, y.
  - apply Z.compare_antisym.
  - apply String.compare_antisym.
  - apply Z.compare_antisym.
  - apply strings_compare_antisym.
Qed.

Lemma strictly_before_asym keys (x y : doc) :
  strictly_before keys x y = true -> strictly_before keys y x = false.
Proof.
  induction keys as [|k ks IH]; [discriminate|].
  simpl. destruct (sort_key k) as [f desc].
  rewrite (value_compare_antisym (y !! f) (x !! f)).
  destruct (value_compare (x !! f) (y !! f)); simpl; auto;
    destruct desc; simpl; congruence.
Qed.

Lemma insert_sorted_neighbours keys (x : doc) (l : list doc) :
  neighbours (fun a b => strictly_before keys b a = false) l ->
  neighbours (fun a b => strictly_before keys b a = false)
    (insert_sorted keys x l).
Proof.
  induction l as [|y ys IH]; [intros _; exact I|].
  intros Hs. simpl. destruct (strictly_before keys y x) eqn:Hyx.
  - destruct ys as [|z zs].
    + simpl. split; [now apply strictly_before_asym | exact I].
    + destruct Hs as [Hyz Hs]. specialize (IH Hs). simpl in IH |- *.
      destruct (strictly_before keys z x) eqn:Hzx.
      * split; [exact Hyz | exact IH].
      * split; [now apply strictly_before_asym | exact IH].
  - split; [exact Hyx | exact Hs].
Qed.

(** The rows come out of the store in the order of the sort keys. *)
Lemma sort_docs_neighbours keys (l : list doc) :
  neighbours (fun a b => strictly_before keys b a = false) (sort_docs keys l).
Proof.
  induction l as [|x l IH]; [exact I|].
  simpl. now apply insert_sorted_neighbours.
Qed.

Lemma neighbours_skipn {A} (R : A -> A -> Prop) (n : nat) (l : list A) :
  neighbours R l -> neighbours R (skipn n l).
Proof.
  revert l. induction n as [|n IH]; intros l Hl; [exact Hl|].
  destruct l as [|x l]; [exact I|]. simpl. apply IH.
  destruct l; [exact I | apply Hl].
Qed.

Lemma neighbours_firstn {A} (R : A -> A -> Prop) (n : nat) (l : list A) :
  neighbours R l -> neighbours R (firstn n l).
Proof.
  revert l. induction n as [|n IH]; intros l Hl; [exact I|].
  destruct l as [|x l]; [exact I|].
  specialize (IH l). destruct l as [|y l]; [destruct n; exact I|].
  destruct Hl as [Hxy Hl]. specialize (IH Hl).
  destruct n as [|n]; [exact I|]. simpl in IH |- *. now split.
Qed.

Lemma neighbours_map {A B} (R : B -> B -> Prop) (f : A -> B) (l : list A) :
  neighbours (fun a b => R (f a) (f b)) l -> neighbours R (map f l).
Proof.
  induction l as [|x l IH]; [intros _; exact I|].
  destruct l as [|y l]; [intros _; exact I|].
  intros [Hxy Hl]. split; [exact Hxy | now apply IH].
Qed.

Lemma neighbours_impl {A} (R R' : A -> A -> Prop) (l : list A) :
  (forall a b, R a b -> R' a b) -> neighbours R l -> neighbours R' l.
Proof.
  intros HR. induction l as [|x l IH]; [intros _; exact I|].
  destruct l as [|y l]; [intros _; exact I|].
  intros [Hxy Hl]. split; [now apply HR | now apply IH].
Qed.

(** The fields of [settings.fields] go through [filterFields] untouched;
    the others are dropped. *)
Lemma filterFields_lookup (d : doc) (k : string) :
  filterFields d !! k = if decide (k ∈ settings_fields) then d !! k else None.
Proof.
  unfold filterFields. destruct (decide (k ∈ settings_fields)) as [Hk|Hk].
  - destruct (d !! k) as [v|] eqn:Hd.
    + apply map_lookup_filter_Some. auto.
    + apply map_lookup_filter_None. now left.
  - apply map_lookup_filter_None. right. intros v _. exact Hk.
Qed.

Lemma find_newest_first (p : find_params) (s : store) :
  sort p = ["-createdAt"] ->
  neighbours not_newer (transformDocuments (find p s)).
Proof.
  intros Hsort. unfold transformDocuments. apply neighbours_map.
  assert (Hsorted : neighbours
                      (fun a b => strictly_before ["-createdAt"] b a = false)
                      (find p s)).
  { unfold find, apply_limit, apply_offset. rewrite Hsort.
    destruct (Adapter.limit p) as [l|], (Adapter.offset p) as [o|];
      case_paging;
      repeat first [apply neighbours_firstn | apply neighbours_skipn];
      apply sort_docs_neighbours. }
  revert Hsorted. apply neighbours_impl. intros a b. unfold not_newer.
  rewrite !filterFields_lookup. simpl.
  destruct (decide ("createdAt" ∈ settings_fields)) as [_|Hn].
  - destruct (value_compare (b !! "createdAt") (a !! "createdAt"));
      simpl; congruence.
  - exfalso. apply Hn. unfold settings_fields.
    do 3 (apply elem_of_cons; right). apply elem_of_cons. now left.
Qed.

(** X16. The pages of [list] and of [listByUser] run from the newest game
    to the oldest: no game of a page is followed by one with a later
    [createdAt]. *)
Theorem pages_newest_first (p : list_params) (s : store) :
  (exists rows : list doc,
      games <$> result_value (fst (list_ p s)) = Some (Some (map JDoc rows))
      /\ neighbours not_newer rows)
  /\ (forall c, creator p = Some c ->
      exists rows : list doc,
        games <$> result_value (fst (listByUser p s))
        = Some (Some (map JDoc rows))
        /\ neighbours not_newer rows).
Proof.
  split.
  - exists (transformDocuments (find (list_find_params p) s)).
    split; [now rewrite list_eval | now apply find_newest_first].
  - intros c Hc.
    exists (transformDocuments (find (listByUser_find_params c p) s)).
    split; [now rewrite (listByUser_eval p c s Hc)
           | now apply find_newest_first].
Qed.

End SortOrder.

(* ===================================================================== *)
(** ** More on the answers and on the cache keys *)
(* ===================================================================== *)

Section Answers.
Import Adapter Games.

Variable slug_lower : string -> string.

Lemma slug_not_a_field : "slug" ∉ settings_fields.
Proof. apply (bool_decide_unpack _). vm_compute. exact I. Qed.

(** X17. The games in the answers of [create], [update] and [list] are the
    stored games cut down to [settings.fields]: a field of that list has
    its stored value, any other field is absent.  The slug is not in the
    list, so no answer shows the slug that [remove] goes by. *)
Theorem answers_show_settings_fields :
  (forall d k,
      filterFields d !! k
      = if decide (k ∈ settings_fields) then d !! k else None)
  /\ (forall d, filterFields d !! "slug" = None)
  /\ (forall body actor rnd tc tu fresh (s s' : store) r,
         create slug_lower body actor rnd tc tu fresh s = (Ok r, s') ->
         exists d, s' = s ++ [d]
                   /\ Games.game r = Some (JDoc (filterFields d)))
  /\ (forall id patch actor now (s s' : store) r,
         update id patch actor now s = (Ok r, s') ->
         exists g', findById (Some (VStr id)) s' = Some g'
                    /\ Games.game r = Some (JDoc (filterFields g')))
  /\ (forall p (s : store),
         exists rows,
           games <$> result_value (fst (list_ p s))
           = Some (Some (map JDoc (map filterFields rows)))
           /\ forall d, In d rows -> In d s).
Proof.
  split_and!.
  - apply filterFields_lookup.
  - intros d. rewrite filterFields_lookup.
    destruct (decide ("slug" ∈ settings_fields)) as [H|]; [|reflexivity].
    now apply slug_not_a_field in H.
  - intros body actor rnd tc tu fresh s s' r Hc.
    apply create_inv in Hc as (_ & d & -> & -> & _). eauto.
  - intros id patch actor now s s' r Hu. apply update_ok_inv in Hu.
    destruct (update_handler_found _ _ _ _ _ _ _ Hu) as [g Hf].
    destruct (update_handler_ok_inv _ _ _ _ _ _ _ _ Hf Hu)
      as (Hc & Hid & _ & Hs').
    rewrite (update_handler_owner _ _ _ _ _ _ Hf Hc) in Hu.
    rewrite bool_decide_eq_true_2 in Hu
      by (rewrite Hid; symmetry; now apply getById_id with s).
    injection Hu as <- _. eauto.
  - intros p s. exists (find (list_find_params p) s). split.
    + now rewrite list_eval.
    + intros d Hd. now apply find_incl in Hd.
Qed.

End Answers.

Section CacheKeysMore.
Import Adapter Games.

Context {K : Type}.
Variable keygen : string -> list (option value) -> K.

(** X18. The cache key of [listByUser] does not depend on the creator asked
    for: line 220 lists [game], which is no parameter of the action, in the
    place of [creator].  Two requests that differ in the creator only get
    the same key, though they run different queries. *)
Theorem listByUser_cache_key_ignores_creator (c1 c2 : string)
    (l o : option Z) (t : option string) (meta : doc) :
  let p1 := {| creator := Some c1; Games.limit := l; Games.offset := o;
               tag := t |} in
  let p2 := {| creator := Some c2; Games.limit := l; Games.offset := o;
               tag := t |} in
  listByUser_cache_key keygen p1 meta = listByUser_cache_key keygen p2 meta
  /\ (c1 <> c2 ->
      query_of (listByUser_find_params c1 p1)
      <> query_of (listByUser_find_params c2 p2)).
Proof.
  cbv zeta. split.
  - apply listByUser_cache_key_creator_blind.
  - intros Hne. simpl. congruence.
Qed.

End CacheKeysMore.
